(** * Bounded views of seqan3: [view::take] and [views::take_until]

    A shallow embedding of
      - include/seqan3/range/view/take.hpp        (module [Take])
      - include/seqan3/range/views/take_until.hpp (module [TakeUntil])
    together with the properties of their iterator / sentinel protocols.

    Conventions of the embedding.
      - [size_t] is a [Z] in [0, 2^64); [++] and [--] on it wrap around.
      - A source is a finite list of elements.  An iterator of the underlying
        range is the list of the elements from its position to the physical
        end; it compares equal to the underlying sentinel iff that list is
        empty.  For a single-pass source this list is the source's remaining
        input.
      - A C++ call either returns, throws, or has undefined behaviour
        (dereferencing or incrementing an exhausted underlying iterator,
        reading a contiguous buffer out of bounds): type [result].
      - The callable handed to [take_until] is a function object with its own
        state: invoking it returns the boolean and the object afterwards.
      - What a range object holds after it has been moved from is left open
        ([moved_from_size]), except for forwarding ranges. *)

From Stdlib Require Import ZArith List Bool Lia.
Import ListNotations.
Open Scope Z_scope.

(* ================================================================== *)
(** ** Common definitions                                              *)
(* ================================================================== *)

(** [size_t] arithmetic. *)
Definition size_t_modulus : Z := 2 ^ 64.
Definition wrap (z : Z) : Z := z mod size_t_modulus.
Definition is_size_t (z : Z) : Prop := 0 <= z < size_t_modulus.

(** The two exceptions the views throw: [std::invalid_argument] (the spec's
    InvalidBound) and [seqan3::unexpected_end_of_input]. *)
Inductive exception : Type :=
| invalid_argument
| unexpected_end_of_input.

Inductive result (A : Type) : Type :=
| Ok (a : A)
| Throw (e : exception)
| Undefined.
Arguments Ok {A} a.
Arguments Throw {A} e.
Arguments Undefined {A}.

(** How a traversal stops. *)
Inductive ending : Type :=
| finished
| raised (e : exception)
| undefined_behaviour
| out_of_fuel.

(** What a traversal leaves behind: the elements handed out so far, the
    state at the point where it stopped, and how it stopped. *)
Record trace (T S : Type) : Type := mk_trace
  { yielded : list T; final : S; how : ending }.
Arguments mk_trace {T S} _ _ _.
Arguments yielded {T S} _.
Arguments final {T S} _.
Arguments how {T S} _.

(** The iterator protocol a caller drives: comparison with the sentinel,
    dereference, pre-increment; all over one state [S] that holds the cursor
    and whatever it shares with its view. *)
Class Cursor (T S : Type) : Type :=
  { at_sentinel : S -> result bool * S;
    dereference : S -> result T;
    increment   : S -> result S }.

(** The range-based for loop: while the cursor differs from the sentinel,
    hand out the element it points to and pre-increment it. *)
Fixpoint for_each {T S : Type} `{Cursor T S} (fuel : nat) (s : S) (out : list T)
  : trace T S :=
  match fuel with
  | O => mk_trace out s out_of_fuel
  | S fuel' =>
      match at_sentinel s with
      | (Throw e, s1)   => mk_trace out s1 (raised e)
      | (Undefined, s1) => mk_trace out s1 undefined_behaviour
      | (Ok true, s1)   => mk_trace out s1 finished
      | (Ok false, s1)  =>
          match dereference s1 with
          | Throw e   => mk_trace out s1 (raised e)
          | Undefined => mk_trace out s1 undefined_behaviour
          | Ok x =>
              match increment s1 with
              | Throw e   => mk_trace (out ++ [x]) s1 (raised e)
              | Undefined => mk_trace (out ++ [x]) s1 undefined_behaviour
              | Ok s2     => for_each fuel' s2 (out ++ [x])
              end
          end
      end
  end.

(** Reading [count] consecutive elements of a buffer that starts at [data]. *)
Fixpoint read_n {T : Type} (data : list T) (count : nat) (out : list T)
  {struct count} : list T * ending :=
  match count with
  | O => (out, finished)
  | S count' =>
      match data with
      | [] => (out, undefined_behaviour)
      | x :: data' => read_n data' count' (out ++ [x])
      end
  end.

(* ================================================================== *)
(** ** range/view/take.hpp                                             *)
(* ================================================================== *)

Module Take.

(** Traversal strength of the underlying range. *)
Inductive traversal : Type :=
| input_only | forward | bidirectional | random_access | contiguous.

(** The properties of [urng_t] that [take_fn] and [view_take] dispatch on. *)
Inductive range_type : Type :=
| basic_string_view
| basic_string_const
| other (strength : traversal) (sized forwarding : bool).

Definition SizedRange (t : range_type) : bool :=
  match t with other _ s _ => s | _ => true end.

Definition ForwardingRange (t : range_type) : bool :=
  match t with other _ _ f => f | _ => true end.

Definition ContiguousRange (t : range_type) : bool :=
  match t with
  | other contiguous _ _ => true
  | other _ _ _ => false
  | _ => true
  end.

Definition RandomAccessRange (t : range_type) : bool :=
  match t with
  | other contiguous _ _ | other random_access _ _ => true
  | other _ _ _ => false
  | _ => true
  end.

Definition ForwardIterator (t : range_type) : bool :=
  match t with other input_only _ _ => false | _ => true end.

Section View.
Context {T : Type}.

Record range : Type := mk_range { rtype : range_type; elems : list T }.

(** [std::ranges::size]: the number of elements (of a sized range, which
    reports it as a [size_t]). *)
Definition size (r : range) : Z := Z.of_nat (length (elems r)).

(** [class view_take] *)
Record view_take : Type := mk_view_take { urange : range; target_size : Z }.

(** [view_take::iterator_type]; [host_ptr] is the view held next to it in
    [store]. *)
Record iterator_type : Type := mk_iterator
  { base : list T; pos : Z; max_pos : Z }.

Record store : Type := mk_store { host : view_take; it : iterator_type }.

(** What [seqan3::size] finds in a range object that has been moved from,
    [None] where calling it there is undefined.  The moved-from state of a
    view type is not fixed by this header: it is left open. *)
Variable moved_from_size : range -> option Z.

(** The size read from a moved-from parameter.  A forwarding range is an
    lvalue or a borrowed range; the view over it only refers to the
    elements, and moving such a view copies it. *)
Definition size_after_move (r : range) : option Z :=
  if ForwardingRange (rtype r) then Some (size r) else moved_from_size r.

Section Config.
Variables exactly or_throw : bool.

(** [view_take::view_take(urng_t _urange, size_t const _size)].  The member
    is initialised by moving [_urange]; the check then reads
    [seqan3::size(_urange)] of the moved-from parameter. *)
Definition view_take_ctor (_urange : range) (_size : Z) : result view_take :=
  if exactly && or_throw && SizedRange (rtype _urange) then
    match size_after_move _urange with
    | None => Undefined
    | Some moved_size =>
        if moved_size <? _size
        then Throw invalid_argument
        else Ok (mk_view_take _urange _size)
    end
  else Ok (mk_view_take _urange _size).

(** [view_take::begin()], non-const: the iterator gets [this] as its host. *)
Definition begin_ (v : view_take) : store :=
  mk_store v (mk_iterator (elems (urange v)) 0 (target_size v)).

(** [iterator_type::operator++()] *)
Definition op_incr (s : store) : result store :=
  match base (it s) with
  | [] => Undefined
  | _ :: rest =>
      let it' := mk_iterator rest (wrap (pos (it s) + 1)) (max_pos (it s)) in
      if exactly && negb (ForwardIterator (rtype (urange (host s)))) then
        Ok (mk_store (mk_view_take (urange (host s))
                                   (wrap (target_size (host s) - 1)))
                     it')
      else Ok (mk_store (host s) it')
  end.

(** [iterator_type::operator==(sentinel_type const &)] *)
Definition op_eq_sentinel (i : iterator_type) : result bool :=
  if max_pos i <=? pos i then Ok true
  else match base i with
       | [] => if or_throw then Throw unexpected_end_of_input else Ok true
       | _ :: _ => Ok false
       end.

(** Dereference, inherited from the underlying iterator. *)
Definition op_deref (i : iterator_type) : result T :=
  match base i with
  | [] => Undefined
  | x :: _ => Ok x
  end.

#[local] Instance take_cursor : Cursor T store :=
  {| at_sentinel := fun s => (op_eq_sentinel (it s), s);
     dereference := fun s => op_deref (it s);
     increment   := op_incr |}.

(** [view_take::size()]: only declared when [exactly] or the underlying
    range is sized. *)
Definition view_size (v : view_take) : option Z :=
  if exactly then Some (target_size v)
  else if SizedRange (rtype (urange v))
       then Some (Z.min (target_size v) (size (urange v)))
       else None.

(** The representations [take_fn] returns: a [std::basic_string_view] or a
    [std::span] (pointer and length), a [std::ranges::subrange] from [first]
    to [first + last_offset] that stores its size, or a [view_take]. *)
Inductive take_result : Type :=
| string_view (data : list T) (len : Z)
| span (data : list T) (len : Z)
| subrange (first : list T) (last_offset : Z) (sz : Z)
| general (v : view_take).

(** [take_fn::operator()(urng_t && urange, size_t target_size)] *)
Definition take_fn (urange : range) (target_size : Z) : result take_result :=
  let checked :=
    if SizedRange (rtype urange) then
      if or_throw then
        if size urange <? target_size then Throw invalid_argument
        else Ok target_size
      else Ok (Z.min target_size (size urange))
    else Ok target_size in
  match checked with
  | Throw e => Throw e
  | Undefined => Undefined
  | Ok target_size =>
      match rtype urange with
      | basic_string_view =>
          (* urange.substr(0, target_size) *)
          Ok (string_view (elems urange) (Z.min target_size (size urange - 0)))
      | basic_string_const =>
          Ok (string_view (elems urange) target_size)
      | other _ _ _ =>
          if ForwardingRange (rtype urange) && ContiguousRange (rtype urange)
             && SizedRange (rtype urange)
          then Ok (span (elems urange) target_size)
          else if ForwardingRange (rtype urange)
                  && RandomAccessRange (rtype urange)
                  && SizedRange (rtype urange)
          then Ok (subrange (elems urange) target_size target_size)
          else
            match view_take_ctor urange target_size with
            | Ok v => Ok (general v)
            | Throw e => Throw e
            | Undefined => Undefined
            end
      end
  end.

(** Traversing a view from [begin()] to [end()]. *)
Definition traverse (fuel : nat) (v : view_take) : trace T store :=
  for_each fuel (begin_ v) [].

(** What a caller sees of a returned value: its elements ... *)
Definition elements (fuel : nat) (t : take_result) : list T * ending :=
  match t with
  | string_view data len => read_n data (Z.to_nat len) []
  | span data len => read_n data (Z.to_nat len) []
  | subrange first last_offset _ => read_n first (Z.to_nat last_offset) []
  | general v => let tr := traverse fuel v in (yielded tr, how tr)
  end.

(** ... and its size. *)
Definition size_of (t : take_result) : option Z :=
  match t with
  | string_view _ len => Some len
  | span _ len => Some len
  | subrange _ _ sz => Some sz
  | general v => view_size v
  end.

(** Whether the iterator carries a pointer to its view, that is
    [exactly && !std::ForwardIterator<base_base_t>]. *)
Definition shrinks (h : view_take) : bool :=
  exactly && negb (ForwardIterator (rtype (urange h))).

(** The view after [k] increments of an iterator obtained from it. *)
Definition host_after (h : view_take) (k : Z) : view_take :=
  if shrinks h then mk_view_take (urange h) (wrap (target_size h - k)) else h.

(** The number of elements a traversal hands out from a cursor at offset
    [p] with bound [m] and [b] left in the underlying range. *)
Definition steps (m p : Z) (b : list T) : nat :=
  Nat.min (Z.to_nat (m - p)) (length b).

End Config.
End View.

Arguments range : clear implicits.
Arguments view_take : clear implicits.
Arguments iterator_type : clear implicits.
Arguments store : clear implicits.
Arguments take_result : clear implicits.

End Take.

(* ================================================================== *)
(** ** range/views/take_until.hpp                                      *)
(* ================================================================== *)

Module TakeUntil.

Section View.
Context {T F : Type}.

(** [fun_t]: the call operator of a function object in state [F]. *)
Variable invoke : F -> T -> bool * F.

(** The underlying range, with the one property the view dispatches on. *)
Record range : Type := mk_range { forward_range : bool; elems : list T }.

(** [class view_take_until]; [functor] is its member [fun]. *)
Record view_take_until : Type := mk_view { urange : range; functor : F }.

(** [basic_iterator]: the underlying iterator and a reference to [fun]. *)
Record basic_iterator : Type := mk_basic { base : list T }.

(** [basic_consume_iterator]; [stored_end] is the underlying sentinel. *)
Record basic_consume_iterator : Type := mk_consume
  { cbase : list T; at_end_gracefully : bool }.

(** [view_take_until::iterator] *)
Inductive iterator : Type :=
| plain (i : basic_iterator)
| consuming (i : basic_consume_iterator).

(** The function object of the view and a cursor that refers to it. *)
Record store : Type := mk_store { fn : F; it : iterator }.

Section Config.
Variables or_throw and_consume : bool.

(** [operator==(basic_iterator const &, basic_sentinel const &)] *)
Definition sentinel_eq (f : F) (i : basic_iterator) : result bool * F :=
  match base i with
  | [] => if or_throw then (Throw unexpected_end_of_input, f) else (Ok true, f)
  | x :: _ => let (r, f') := invoke f x in (Ok r, f')
  end.

(** Pre-increment of [basic_iterator], inherited. *)
Definition basic_incr (i : basic_iterator) : result basic_iterator :=
  match base i with
  | [] => Undefined
  | _ :: rest => Ok (mk_basic rest)
  end.

(** The loop of [basic_consume_iterator::operator++()]: while not at the
    stored end and the functor holds, set the flag and step. *)
Fixpoint consume_run (b : list T) (f : F) (g : bool)
  : F * basic_consume_iterator :=
  match b with
  | [] => (f, mk_consume [] g)
  | x :: rest =>
      let (r, f') := invoke f x in
      if r then consume_run rest f' true else (f', mk_consume b g)
  end.

(** [basic_consume_iterator::operator++()] *)
Definition consume_incr (f : F) (i : basic_consume_iterator)
  : result (F * basic_consume_iterator) :=
  match cbase i with
  | [] => Undefined
  | _ :: rest => Ok (consume_run rest f (at_end_gracefully i))
  end.

(** [basic_consume_iterator(base_base_t it, fun_ref_t _fun, sentinel_type sen)] *)
Definition consume_ctor (b : list T) (f : F)
  : result (F * basic_consume_iterator) :=
  match b with
  | [] => Ok (f, mk_consume b false)
  | x :: _ =>
      let (r, f') := invoke f x in
      if r then consume_incr f' (mk_consume b true)
      else Ok (f', mk_consume b false)
  end.

(** [basic_consume_iterator::operator==(sentinel_type const &)] *)
Definition consume_eq (f : F) (i : basic_consume_iterator) : result bool * F :=
  if at_end_gracefully i then (Ok true, f)
  else match cbase i with
       | [] => if or_throw then (Throw unexpected_end_of_input, f)
               else (Ok true, f)
       | x :: _ => let (r, f') := invoke f x in (Ok r, f')
       end.

(** [view_take_until::begin()] *)
Definition begin_ (v : view_take_until) : result store :=
  if and_consume && negb (forward_range (urange v)) then
    match consume_ctor (elems (urange v)) (functor v) with
    | Ok (f, i) => Ok (mk_store f (consuming i))
    | Throw e => Throw e
    | Undefined => Undefined
    end
  else Ok (mk_store (functor v) (plain (mk_basic (elems (urange v))))).

(** The underlying position of a cursor. *)
Definition position (i : iterator) : list T :=
  match i with
  | plain i => base i
  | consuming i => cbase i
  end.

(** Comparison with what [end()] returns: a [basic_sentinel] for the plain
    cursor, the underlying sentinel for the consuming one. *)
Definition op_eq_sentinel (s : store) : result bool * store :=
  match it s with
  | plain i => let (r, f) := sentinel_eq (fn s) i in (r, mk_store f (plain i))
  | consuming i =>
      let (r, f) := consume_eq (fn s) i in (r, mk_store f (consuming i))
  end.

(** Dereference, inherited from the underlying iterator by both cursors. *)
Definition op_deref (s : store) : result T :=
  match position (it s) with
  | [] => Undefined
  | x :: _ => Ok x
  end.

(** Pre-increment of the cursor [begin()] returned. *)
Definition op_incr (s : store) : result store :=
  match it s with
  | plain i =>
      match basic_incr i with
      | Ok i' => Ok (mk_store (fn s) (plain i'))
      | Throw e => Throw e
      | Undefined => Undefined
      end
  | consuming i =>
      match consume_incr (fn s) i with
      | Ok (f, i') => Ok (mk_store f (consuming i'))
      | Throw e => Throw e
      | Undefined => Undefined
      end
  end.

#[local] Instance take_until_cursor : Cursor T store :=
  {| at_sentinel := op_eq_sentinel;
     dereference := op_deref;
     increment   := op_incr |}.

(** Traversing the view from [begin()] to [end()]. *)
Definition traverse (fuel : nat) (v : view_take_until) : trace T store :=
  match begin_ v with
  | Ok s => for_each fuel s []
  | Throw e =>
      mk_trace [] (mk_store (functor v) (plain (mk_basic (elems (urange v)))))
               (raised e)
  | Undefined =>
      mk_trace [] (mk_store (functor v) (plain (mk_basic (elems (urange v)))))
               undefined_behaviour
  end.

(** Comparing a cursor with the sentinel [k] times in a row. *)
Fixpoint compare_repeatedly (k : nat) (s : store)
  : list (result bool) * store :=
  match k with
  | O => ([], s)
  | S k' =>
      let (r, s1) := op_eq_sentinel s in
      let (rs, s2) := compare_repeatedly k' s1 in
      (r :: rs, s2)
  end.

End Config.

(** A regular functor: invoking it leaves it unchanged and its answer is a
    function [p] of the argument ([std::regular_invocable]). *)
Definition regular (f : F) (p : T -> bool) : Prop :=
  forall x : T, invoke f x = (p x, f).

(** The invariant of the consuming cursor: unless it has ended gracefully
    or the underlying range is exhausted, the element it points to does not
    satisfy the predicate. *)
Definition consume_inv (p : T -> bool) (i : basic_consume_iterator) : Prop :=
  at_end_gracefully i = false ->
  match cbase i with
  | [] => True
  | x :: _ => p x = false
  end.

(** The elements in front of the first one on which the functor, invoked on
    one element after the other, answers true; the elements from that one
    on; the functor afterwards. *)
Fixpoint scan (f : F) (s : list T) : list T * list T * F :=
  match s with
  | [] => ([], [], f)
  | x :: rest =>
      let (r, f') := invoke f x in
      if r then ([], s, f')
      else let '(ys, zs, f'') := scan f' rest in (x :: ys, zs, f'')
  end.

(** The rest of [s] behind its leading elements that satisfy [p]. *)
Fixpoint skip_while (p : T -> bool) (s : list T) : list T :=
  match s with
  | [] => []
  | x :: rest => if p x then skip_while p rest else s
  end.

(** The functor after it has been invoked on the elements of [xs], one after
    the other. *)
Definition invoked_on (f : F) (xs : list T) : F :=
  fold_left (fun g x => snd (invoke g x)) xs f.

End View.

Arguments range : clear implicits.
Arguments view_take_until : clear implicits.
Arguments basic_iterator : clear implicits.
Arguments basic_consume_iterator : clear implicits.
Arguments iterator : clear implicits.
Arguments store : clear implicits.

End TakeUntil.

(* ================================================================== *)
(** ** range/view/take.hpp: the iterator over a multi-pass range       *)
(* ================================================================== *)

(** The operators of [view_take::iterator_type] that need more than a
    single pass ([--], [+=], [-=], comparison of two iterators).  The
    underlying iterator is a position in the underlying range; moving it out
    of the range is undefined.  The underlying iterator is a forward
    iterator here, so the iterator holds no pointer to its view. *)
Module TakeRandomAccess.

Definition and_then {A B : Type} (r : result A) (k : A -> result B)
  : result B :=
  match r with
  | Ok a => k a
  | Throw e => Throw e
  | Undefined => Undefined
  end.

Section Iterator.
Context {T : Type}.

Record base_iterator : Type := mk_base { underlying : list T; index : Z }.

(** [it += skip] on the underlying iterator. *)
Definition base_advance (b : base_iterator) (skip : Z) : result base_iterator :=
  let j := index b + skip in
  if (0 <=? j) && (j <=? Z.of_nat (length (underlying b)))
  then Ok (mk_base (underlying b) j)
  else Undefined.

Record iterator_type : Type := mk_iterator
  { base : base_iterator; pos : Z; max_pos : Z }.

(** [view_take::begin()] over the range [s] with target size [n]. *)
Definition begin_ (s : list T) (n : Z) : iterator_type :=
  mk_iterator (mk_base s 0) 0 n.

(** [iterator_type::operator++()] *)
Definition op_incr (i : iterator_type) : result iterator_type :=
  and_then (base_advance (base i) 1)
           (fun b => Ok (mk_iterator b (wrap (pos i + 1)) (max_pos i))).

(** [iterator_type::operator++(int)]: the copy and the incremented iterator. *)
Definition op_post_incr (i : iterator_type)
  : result (iterator_type * iterator_type) :=
  and_then (op_incr i) (fun i' => Ok (i, i')).

(** [iterator_type::operator--()] *)
Definition op_decr (i : iterator_type) : result iterator_type :=
  and_then (base_advance (base i) (-1))
           (fun b => Ok (mk_iterator b (wrap (pos i - 1)) (max_pos i))).

(** [iterator_type::operator--(int)] *)
Definition op_post_decr (i : iterator_type)
  : result (iterator_type * iterator_type) :=
  and_then (op_decr i) (fun i' => Ok (i, i')).

(** [iterator_type::operator+=(difference_type const skip)] *)
Definition op_add_assign (i : iterator_type) (skip : Z) : result iterator_type :=
  and_then (base_advance (base i) skip)
           (fun b => Ok (mk_iterator b (wrap (pos i + skip)) (max_pos i))).

(** [iterator_type::operator-=(difference_type const skip)] *)
Definition op_sub_assign (i : iterator_type) (skip : Z) : result iterator_type :=
  and_then (base_advance (base i) (- skip))
           (fun b => Ok (mk_iterator b (wrap (pos i - skip)) (max_pos i))).

(** [iterator_type::operator==(iterator_type const &)], on two iterators of
    one range: only the underlying iterators are compared. *)
Definition op_eq (lhs rhs : iterator_type) : bool :=
  index (base lhs) =? index (base rhs).

(** [iterator_type::operator!=(iterator_type const &)] *)
Definition op_neq (lhs rhs : iterator_type) : bool := negb (op_eq lhs rhs).

(** [iterator_type::operator==(sentinel_type const &)] *)
Definition op_eq_sentinel (or_throw : bool) (i : iterator_type) : result bool :=
  if max_pos i <=? pos i then Ok true
  else if index (base i) =? Z.of_nat (length (underlying (base i)))
       then if or_throw then Throw unexpected_end_of_input else Ok true
       else Ok false.

(** [k] pre-increments in a row. *)
Fixpoint incr_times (k : nat) (i : iterator_type) : result iterator_type :=
  match k with
  | O => Ok i
  | S k' => and_then (op_incr i) (incr_times k')
  end.

(** An iterator inside its range whose offset is the position of its
    underlying iterator, as [begin()] makes it. *)
Definition in_step (i : iterator_type) : Prop :=
  0 <= index (base i) <= Z.of_nat (length (underlying (base i))) /\
  pos i = wrap (index (base i)).

End Iterator.

Arguments base_iterator : clear implicits.
Arguments iterator_type : clear implicits.

End TakeRandomAccess.

(* ================================================================== *)
(** ** alignment/pairwise/policy/find_optimum_policy.hpp               *)
(* ================================================================== *)

(** Scores are integers; the policy only compares and adds them.  A column
    of the matrix is a list of cells, each a tuple whose first component is
    the score. *)
Module FindOptimum.

(** [traits_type]: where the optimum is searched. *)
Record traits_type : Type := mk_traits
  { find_in_every_cell_type : bool;
    find_in_last_row_type : bool;
    find_in_last_column_type : bool }.

(** [struct default_find_optimum_trait] *)
Definition default_find_optimum_trait : traits_type :=
  mk_traits false false false.

Section Policy.
Variable traits : traits_type.

(** [find_optimum_policy::check_score]: the optimum afterwards. *)
Definition check_score (val optimum : Z) : Z :=
  if find_in_every_cell_type traits then Z.max optimum val else optimum.

(** [find_optimum_policy::check_score_last_row] *)
Definition check_score_last_row (val optimum : Z) : Z :=
  if find_in_last_row_type traits then Z.max optimum val else optimum.

(** The element in front of the end of a range. *)
Fixpoint back {A : Type} (rng : list A) : result A :=
  match rng with
  | [] => Undefined
  | [x] => Ok x
  | _ :: rest => back rest
  end.

(** [find_optimum_policy::check_score_last_column] *)
Definition check_score_last_column {C : Type} (rng : list (Z * C)) (optimum : Z)
  : result Z :=
  if find_in_last_column_type traits then
    Ok (fold_left (fun o tpl => Z.max o (fst tpl)) rng optimum)
  else
    match back rng with
    | Ok tpl => Ok (Z.max optimum (fst tpl))
    | Throw e => Throw e
    | Undefined => Undefined
    end.

(** [static_cast<cmp_int_type>]: the value as a signed integer of [bits]
    bits, the width of [dimension_type]. *)
Definition to_signed (bits z : Z) : Z :=
  let m := z mod 2 ^ bits in
  if m <? 2 ^ (bits - 1) then m else m - 2 ^ bits.

Section Balance.
Variable bits : Z.
Context {score_type : Type}.
(** [operator+=] of [score_type] and [gap_scheme_type::score]. *)
Variable add : score_type -> score_type -> score_type.
Variable score : Z -> score_type.

(** The gap behind a band that ends before the last column.  The sum of the
    band's bound and the dimension is formed in a type at least as wide as
    [dimension_type], so that its cast is the sum modulo [2 ^ bits]. *)
Definition gap_size_last_column (dimension_first dimension_second upper_bound : Z)
  : Z :=
  to_signed bits
    (dimension_first
     - Z.min (to_signed bits (upper_bound + dimension_second))
             (to_signed bits dimension_first)).

(** The gap behind a band that ends before the last row. *)
Definition gap_size_last_row (dimension_first dimension_second lower_bound : Z)
  : Z :=
  to_signed bits
    (dimension_second
     - Z.min (to_signed bits (dimension_first - lower_bound))
             (to_signed bits dimension_second)).

(** [find_optimum_policy::balance_trailing_gaps]: the total afterwards, or
    [None] where one of its assertions [gap_size >= 0] fails. *)
Definition balance_trailing_gaps
           (total : score_type) (dimension_first dimension_second : Z)
           (lower_bound upper_bound : Z) : option score_type :=
  let first :=
    if negb (find_in_last_row_type traits)
       && negb (find_in_every_cell_type traits)
    then
      let gap_size :=
        gap_size_last_column dimension_first dimension_second upper_bound in
      if 0 <=? gap_size then Some (add total (score gap_size)) else None
    else Some total in
  match first with
  | None => None
  | Some total =>
      if negb (find_in_last_column_type traits)
         && negb (find_in_every_cell_type traits)
      then
        let gap_size :=
          gap_size_last_row dimension_first dimension_second lower_bound in
        if 0 <=? gap_size then Some (add total (score gap_size)) else None
      else Some total
  end.

End Balance.
End Policy.

End FindOptimum.

(* ================================================================== *)
(** ** alphabet/aminoacid/aa27_container.hpp                           *)
(* ================================================================== *)

(** The literal operators.  The letter type [aa27] with its default value
    and [from_char] is declared in aa27.hpp and taken as given. *)
Module Aa27Container.

Section Literals.
Context {aa27 : Type}.
Variable default : aa27.
Variable from_char : Byte.byte -> aa27.

(** Assignment through an iterator [d_first] positions into [r]. *)
Fixpoint assign_at (r : list aa27) (d_first : nat) (a : aa27)
  : result (list aa27) :=
  match r, d_first with
  | [], _ => Undefined
  | _ :: rest, O => Ok (a :: rest)
  | x :: rest, S d =>
      match assign_at rest d a with
      | Ok rest' => Ok (x :: rest')
      | Throw e => Throw e
      | Undefined => Undefined
      end
  end.

(** [std::transform(s, s + n, r.begin(), from_char)], [d_first] positions
    into [r]. *)
Fixpoint transform (s : list Byte.byte) (n : nat) (r : list aa27) (d_first : nat)
  {struct n} : result (list aa27) :=
  match n with
  | O => Ok r
  | S n' =>
      match s with
      | [] => Undefined
      | c :: s' =>
          match assign_at r d_first (from_char c) with
          | Ok r' => transform s' n' r' (S d_first)
          | Throw e => Throw e
          | Undefined => Undefined
          end
      end
  end.

(** [operator "" _aa27(const char * s, std::size_t n)] *)
Definition operator_aa27 (s : list Byte.byte) (n : nat) : result (list aa27) :=
  let r := repeat default n in
  transform s n r 0.

(** [operator "" _aa27s(const char * s, std::size_t n)] *)
Definition operator_aa27s (s : list Byte.byte) (n : nat) : result (list aa27) :=
  let r := repeat default n in
  transform s n r 0.

End Literals.

End Aa27Container.

(* ================================================================== *)
(** ** Properties of [view::take]                                      *)
(* ================================================================== *)

Module TakeProofs.
Import Take.

Lemma wrap_small (z : Z) : is_size_t z -> wrap z = z.
Proof. unfold is_size_t, wrap. intros H. now apply Z.mod_small. Qed.

Lemma wrap_is_size_t (z : Z) : is_size_t (wrap z).
Proof.
  unfold is_size_t, wrap. apply Z.mod_pos_bound.
  unfold size_t_modulus. lia.
Qed.

Lemma read_n_firstn {T : Type} (count : nat) :
  forall (data out : list T),
    (count <= length data)%nat ->
    read_n data count out = (out ++ firstn count data, finished).
Proof.
  induction count as [|c IH]; intros data out Hle; simpl.
  - now rewrite app_nil_r.
  - destruct data as [|x data']; simpl in Hle; [lia|].
    rewrite IH by lia. simpl. now rewrite <- app_assoc.
Qed.

Section Traversal.
Context {T : Type}.
Variables exactly or_throw : bool.

Lemma host_after_0 (h : view_take T) :
  is_size_t (target_size h) -> host_after exactly h 0 = h.
Proof.
  intros Hs. unfold host_after. destruct (shrinks exactly h); [|reflexivity].
  rewrite Z.sub_0_r, wrap_small by assumption. now destruct h.
Qed.

Lemma host_after_step (h : view_take T) (k : Z) :
  host_after exactly (host_after exactly h 1) k = host_after exactly h (1 + k).
Proof.
  unfold host_after, shrinks.
  destruct (exactly && negb (ForwardIterator (rtype (urange h)))) eqn:E.
  - cbn [urange target_size]. rewrite E. f_equal. unfold wrap.
    rewrite Zminus_mod_idemp_l. f_equal. lia.
  - rewrite E. reflexivity.
Qed.

Lemma op_incr_cons (h : view_take T) (x : T) (rest : list T) (p m : Z) :
  op_incr exactly (mk_store h (mk_iterator (x :: rest) p m)) =
  Ok (mk_store (host_after exactly h 1) (mk_iterator rest (wrap (p + 1)) m)).
Proof.
  unfold op_incr, host_after, shrinks. simpl.
  now destruct (exactly && negb (ForwardIterator (rtype (urange h)))).
Qed.

(** The loop, from any cursor within its bound. *)
Lemma for_each_take (m : Z) (Hm : is_size_t m) :
  forall (b : list T) (p : Z) (out : list T) (h : view_take T) (fuel : nat),
    0 <= p <= m ->
    is_size_t (target_size h) ->
    (steps m p b < fuel)%nat ->
    for_each (H := take_cursor exactly or_throw) fuel
             (mk_store h (mk_iterator b p m)) out
    = mk_trace (out ++ firstn (steps m p b) b)
               (mk_store (host_after exactly h (Z.of_nat (steps m p b)))
                         (mk_iterator (skipn (steps m p b) b)
                                      (p + Z.of_nat (steps m p b)) m))
               (if m <=? p + Z.of_nat (steps m p b) then finished
                else if or_throw then raised unexpected_end_of_input
                     else finished).
Proof.
  induction b as [|x rest IH]; intros p out h fuel Hp Hh Hfuel;
    (destruct fuel as [|fuel']; [lia|]).
  - (* underlying range exhausted *)
    assert (Hs : steps m p (@nil T) = 0%nat) by (unfold steps; simpl; lia).
    rewrite Hs. simpl. unfold op_eq_sentinel. simpl.
    rewrite Z.add_0_r, app_nil_r, host_after_0 by assumption.
    destruct (m <=? p); [reflexivity|].
    now destruct or_throw.
  - cbn [for_each at_sentinel take_cursor it]. unfold op_eq_sentinel.
    cbn [max_pos pos base].
    destruct (Z.leb_spec m p) as [Hle|Hlt].
    + (* offset has reached the bound *)
      assert (Hs : steps m p (x :: rest) = 0%nat) by (unfold steps; lia).
      rewrite Hs. simpl.
      rewrite Z.add_0_r, app_nil_r, host_after_0 by assumption.
      destruct (Z.leb_spec m p); [reflexivity|lia].
    + cbn [dereference take_cursor op_deref it base increment].
      rewrite op_incr_cons.
      assert (Hw : wrap (p + 1) = p + 1).
      { apply wrap_small. unfold is_size_t in *. lia. }
      rewrite Hw.
      assert (Hs : steps m p (x :: rest) = S (steps m (p + 1) rest)).
      { unfold steps. simpl length.
        replace (Z.to_nat (m - p)) with (S (Z.to_nat (m - (p + 1)))) by lia.
        reflexivity. }
      rewrite Hs in Hfuel |- *.
      rewrite IH; try lia.
      * rewrite <- app_assoc. cbn [firstn skipn app].
        rewrite host_after_step.
        replace (1 + Z.of_nat (steps m (p + 1) rest))
          with (Z.of_nat (S (steps m (p + 1) rest))) by lia.
        replace (p + 1 + Z.of_nat (steps m (p + 1) rest))
          with (p + Z.of_nat (S (steps m (p + 1) rest))) by lia.
        reflexivity.
      * unfold host_after. destruct (shrinks exactly h); [|assumption].
        apply wrap_is_size_t.
Qed.

(** The loop stopped early: after [fuel] rounds, when more were due. *)
Lemma for_each_take_prefix (m : Z) (Hm : is_size_t m) :
  forall (b : list T) (p : Z) (out : list T) (h : view_take T) (fuel : nat),
    0 <= p <= m ->
    is_size_t (target_size h) ->
    (fuel <= steps m p b)%nat ->
    for_each (H := take_cursor exactly or_throw) fuel
             (mk_store h (mk_iterator b p m)) out
    = mk_trace (out ++ firstn fuel b)
               (mk_store (host_after exactly h (Z.of_nat fuel))
                         (mk_iterator (skipn fuel b) (p + Z.of_nat fuel) m))
               out_of_fuel.
Proof.
  induction b as [|x rest IH]; intros p out h fuel Hp Hh Hfuel.
  - assert (fuel = 0%nat) as -> by (unfold steps in Hfuel; simpl in Hfuel; lia).
    simpl. now rewrite Z.add_0_r, app_nil_r, host_after_0.
  - destruct fuel as [|fuel'].
    + simpl. now rewrite Z.add_0_r, app_nil_r, host_after_0.
    + assert (Hlt : p < m) by (unfold steps in Hfuel; lia).
      cbn [for_each at_sentinel take_cursor it]. unfold op_eq_sentinel.
      cbn [max_pos pos base].
      destruct (Z.leb_spec m p) as [Hle|_]; [lia|].
      cbn [dereference take_cursor op_deref it base increment].
      rewrite op_incr_cons.
      assert (Hw : wrap (p + 1) = p + 1).
      { apply wrap_small. unfold is_size_t in *. lia. }
      rewrite Hw, IH.
      * rewrite <- app_assoc. cbn [firstn skipn app].
        rewrite host_after_step.
        replace (1 + Z.of_nat fuel') with (Z.of_nat (S fuel')) by lia.
        replace (p + 1 + Z.of_nat fuel') with (p + Z.of_nat (S fuel')) by lia.
        reflexivity.
      * lia.
      * unfold host_after. destruct (shrinks exactly h); [|assumption].
        apply wrap_is_size_t.
      * unfold steps in *. simpl length in Hfuel. lia.
Qed.

(** A whole traversal, from [begin()]. *)
Lemma traverse_take (v : view_take T) (fuel : nat) :
  is_size_t (target_size v) ->
  (steps (target_size v) 0 (elems (urange v)) < fuel)%nat ->
  traverse exactly or_throw fuel v
  = let c := steps (target_size v) 0 (elems (urange v)) in
    mk_trace (firstn c (elems (urange v)))
             (mk_store (host_after exactly v (Z.of_nat c))
                       (mk_iterator (skipn c (elems (urange v)))
                                    (Z.of_nat c) (target_size v)))
             (if target_size v <=? Z.of_nat c then finished
              else if or_throw then raised unexpected_end_of_input
                   else finished).
Proof.
  intros Hs Hfuel. unfold traverse, begin_.
  rewrite for_each_take; try assumption.
  - reflexivity.
  - unfold is_size_t in Hs. lia.
Qed.

Lemma firstn_min_length (a : nat) (l : list T) :
  firstn (Nat.min a (length l)) l = firstn a l.
Proof.
  destruct (Nat.le_ge_cases a (length l)) as [H|H].
  - now rewrite Nat.min_l.
  - rewrite Nat.min_r, firstn_all by assumption.
    symmetry. now apply firstn_all2.
Qed.

Lemma steps_0 (m : Z) (l : list T) :
  steps m 0 l = Nat.min (Z.to_nat m) (length l).
Proof. unfold steps. now rewrite Z.sub_0_r. Qed.

Lemma to_nat_min_size (n : Z) (l : list T) :
  Z.to_nat (Z.min n (Z.of_nat (length l))) = Nat.min (Z.to_nat n) (length l).
Proof. lia. Qed.

End Traversal.

(* ------------------------------------------------------------------ *)
(** *** Elements of [take(s, n)]                                       *)
(* ------------------------------------------------------------------ *)

Section Elements.
Context {T : Type}.
Variable moved_from_size : range T -> option Z.

(** What every non-throwing representation hands out. *)
Lemma elements_no_throw (exactly : bool) (r : range T) (n : Z) :
  is_size_t n ->
  exists t : take_result T,
    take_fn moved_from_size exactly false r n = Ok t /\
    forall fuel : nat,
      (Nat.min (Z.to_nat n) (length (elems r)) < fuel)%nat ->
      elements exactly false fuel t
      = (firstn (Z.to_nat n) (elems r), finished).
Proof.
  intros Hn. unfold take_fn.
  destruct r as [ty s]. cbn [rtype Take.elems].
  assert (Hread : forall k : Z,
             k = Z.min n (Z.of_nat (length s)) ->
             read_n s (Z.to_nat k) [] = (firstn (Z.to_nat n) s, finished)).
  { intros k ->. rewrite read_n_firstn by lia.
    now rewrite to_nat_min_size, firstn_min_length. }
  assert (Hgen : forall (k : Z) (fuel : nat),
             is_size_t k ->
             Nat.min (Z.to_nat k) (length s) = Nat.min (Z.to_nat n) (length s) ->
             (Nat.min (Z.to_nat n) (length s) < fuel)%nat ->
             elements exactly false fuel
               (general (mk_view_take (mk_range ty s) k))
             = (firstn (Z.to_nat n) s, finished)).
  { intros k fuel Hk Hmin Hfuel. cbn [elements].
    rewrite traverse_take; cbn [target_size urange Take.elems];
      rewrite ?steps_0, ?Hmin; try assumption.
    cbn [yielded how]. rewrite firstn_min_length.
    now destruct (_ <=? _). }
  destruct ty as [| |st sz fw]; cbn [SizedRange ForwardingRange].
  - eexists; split; [reflexivity|]. intros fuel _. cbn [elements].
    apply Hread. unfold size. cbn [Take.elems]. lia.
  - eexists; split; [reflexivity|]. intros fuel _. cbn [elements].
    apply Hread. reflexivity.
  - unfold view_take_ctor. rewrite andb_false_r. cbn [andb].
    destruct sz; unfold size; cbn [Take.elems rtype SizedRange];
      rewrite ?andb_true_r, ?andb_false_r;
      repeat match goal with
             | |- context [if ?b then _ else _] => destruct b
             end;
      eexists; (split; [reflexivity|]); intros fuel Hfuel;
      try (cbn [elements]; apply Hread; reflexivity);
      apply Hgen; try assumption; try reflexivity;
      try (unfold is_size_t in *; lia); lia.
Qed.

(** C1.  For every sequence [s] and every count [n], the non-throwing take
    adaptor (either value of [exactly]) returns a value whose traversal
    finishes having handed out exactly [min (length s) n] elements, the
    [i]-th of them being the [i]-th element of [s]; for [n = 0] it hands out
    nothing. *)
Theorem take_yields_min_length_prefix (exactly : bool) (r : range T) (n : Z) :
  is_size_t n ->
  exists (t : take_result T) (ys : list T),
    take_fn moved_from_size exactly false r n = Ok t /\
    (forall fuel : nat,
        (Nat.min (Z.to_nat n) (length (elems r)) < fuel)%nat ->
        elements exactly false fuel t = (ys, finished)) /\
    length ys = Nat.min (length (elems r)) (Z.to_nat n) /\
    (forall i : nat, (i < length ys)%nat ->
                     nth_error ys i = nth_error (elems r) i) /\
    (n = 0 -> ys = []).
Proof.
  intros Hn.
  destruct (elements_no_throw exactly r n Hn) as (t & Ht & Hel).
  exists t, (firstn (Z.to_nat n) (elems r)).
  repeat split; try assumption.
  - rewrite length_firstn. lia.
  - intros i Hi. rewrite length_firstn in Hi.
    rewrite nth_error_firstn.
    destruct (Nat.ltb_spec i (Z.to_nat n)); [reflexivity|lia].
  - intros ->. reflexivity.
Qed.

End Elements.

Lemma take_yields_min_length_prefix_witness :
  exists (t : take_result nat) (ys : list nat),
    take_fn (fun _ => None) true false (mk_range (other input_only false false) [7; 8; 9]%nat) 2
    = Ok t /\
    (forall fuel : nat,
        (Nat.min (Z.to_nat 2) 3 < fuel)%nat ->
        elements true false fuel t = (ys, finished)) /\
    length ys = Nat.min 3 (Z.to_nat 2) /\
    (forall i : nat, (i < length ys)%nat ->
                     nth_error ys i = nth_error [7; 8; 9]%nat i) /\
    (2 = 0 -> ys = []).
Proof.
  apply (take_yields_min_length_prefix (T := nat) (fun _ => None) true
           (mk_range (other input_only false false) [7; 8; 9]%nat) 2).
  unfold is_size_t, size_t_modulus. lia.
Defined.

(* ------------------------------------------------------------------ *)
(** *** [std::invalid_argument]                                        *)
(* ------------------------------------------------------------------ *)

Section InvalidArgument.
Context {T : Type}.
Variable moved_from_size : range T -> option Z.





End InvalidArgument.



(* ------------------------------------------------------------------ *)
(** *** Comparison with the sentinel and [unexpected_end_of_input]     *)
(* ------------------------------------------------------------------ *)

Section EndOfInput.
Context {T : Type}.
Variable moved_from_size : range T -> option Z.

Lemma op_eq_sentinel_cases (or_throw : bool) (i : iterator_type T) :
  (max_pos i <= pos i -> op_eq_sentinel or_throw i = Ok true) /\
  (pos i < max_pos i -> base i = [] ->
   op_eq_sentinel or_throw i
   = if or_throw then Throw unexpected_end_of_input else Ok true) /\
  (pos i < max_pos i -> base i <> [] -> op_eq_sentinel or_throw i = Ok false) /\
  (forall e : exception,
      op_eq_sentinel or_throw i = Throw e ->
      or_throw = true /\ e = unexpected_end_of_input /\
      pos i < max_pos i /\ base i = []).
Proof.
  unfold op_eq_sentinel.
  destruct (Z.leb_spec (max_pos i) (pos i)) as [Hle|Hlt];
    destruct (base i) as [|x rest]; destruct or_throw;
    repeat split; intros; try lia; try congruence; try discriminate.
Qed.

(** C5.  Comparing the cursor of the count-bounded view with the sentinel
    returns true once the offset has reached the bound; before that, at the
    underlying end, it returns true without [or_throw] and throws
    [unexpected_end_of_input] with it, and this is the only way it throws;
    otherwise it returns false.  For a source [s] (single-pass or not) with
    [n > length s], the view with [exactly = false], [or_throw = true] is
    constructed without error and its traversal does not stop within the
    first [length s] rounds, each handing out the next element of [s]; the
    comparison opening the next round, at the underlying end with offset
    [length s], throws [unexpected_end_of_input].  For an unsized source
    this view is what the adaptor returns. *)
Theorem unexpected_end_at_true_end (r : range T) (n : Z) :
  is_size_t n ->
  size r < n ->
  (forall (or_throw : bool) (i : iterator_type T),
      (max_pos i <= pos i -> op_eq_sentinel or_throw i = Ok true) /\
      (pos i < max_pos i -> base i = [] ->
       op_eq_sentinel or_throw i
       = if or_throw then Throw unexpected_end_of_input else Ok true) /\
      (pos i < max_pos i -> base i <> [] ->
       op_eq_sentinel or_throw i = Ok false) /\
      (forall e : exception,
          op_eq_sentinel or_throw i = Throw e ->
          or_throw = true /\ e = unexpected_end_of_input /\
          pos i < max_pos i /\ base i = [])) /\
  exists v : view_take T,
    view_take_ctor moved_from_size false true r n = Ok v /\
    (SizedRange (rtype r) = false -> take_fn moved_from_size false true r n = Ok (general v)) /\
    (forall fuel : nat,
        (fuel <= length (elems r))%nat ->
        let tr := traverse false true fuel v in
        yielded tr = firstn fuel (elems r) /\ how tr = out_of_fuel) /\
    (forall fuel : nat,
        (length (elems r) < fuel)%nat ->
        let tr := traverse false true fuel v in
        yielded tr = elems r /\
        how tr = raised unexpected_end_of_input /\
        base (it (final tr)) = [] /\
        pos (it (final tr)) = size r /\
        op_eq_sentinel true (it (final tr)) = Throw unexpected_end_of_input).
Proof.
  intros Hn Hlt. split; [intros; apply op_eq_sentinel_cases|].
  exists (mk_view_take r n). unfold size in Hlt.
  assert (Hsteps : steps n 0 (elems r) = length (elems r)).
  { rewrite steps_0. lia. }
  split; [reflexivity|]. split; [|split].
  - intros Hunsized. unfold take_fn, view_take_ctor.
    rewrite Hunsized. destruct (rtype r) eqn:E; try discriminate.
    cbn [SizedRange] in Hunsized. subst sized.
    now rewrite !andb_false_r.
  - intros fuel Hfuel tr. subst tr. unfold traverse, begin_.
    cbn [urange target_size].
    rewrite for_each_take_prefix;
      [split; reflexivity|..]; try assumption; unfold is_size_t in *; lia.
  - intros fuel Hfuel tr. subst tr.
    rewrite traverse_take; cbn [urange target_size]; rewrite ?Hsteps;
      try assumption.
    cbn [yielded how final it base pos].
    rewrite firstn_all, skipn_all.
    destruct (Z.leb_spec n (Z.of_nat (length (elems r)))); [lia|].
    repeat split.
    unfold op_eq_sentinel. cbn [max_pos pos base].
    destruct (Z.leb_spec n (Z.of_nat (length (elems r)))); [lia|reflexivity].
Qed.

End EndOfInput.

Lemma unexpected_end_at_true_end_witness :
  exists v : view_take nat,
    view_take_ctor (fun _ => None) false true
      (mk_range (other input_only false false) [4; 5]%nat) 3 = Ok v /\
    forall fuel : nat,
      (2 < fuel)%nat ->
      yielded (traverse false true fuel v) = [4; 5]%nat /\
      how (traverse false true fuel v) = raised unexpected_end_of_input.
Proof.
  destruct (unexpected_end_at_true_end (T := nat) (fun _ => None)
              (mk_range (other input_only false false) [4; 5]%nat) 3)
    as (_ & v & Hv & _ & _ & Hrun).
  - unfold is_size_t, size_t_modulus. lia.
  - unfold size. simpl. lia.
  - exists v. split; [exact Hv|].
    intros fuel Hfuel. destruct (Hrun fuel Hfuel) as (Hy & Hh & _).
    split; assumption.
Defined.

(* ------------------------------------------------------------------ *)
(** *** The size of an exact view over a single-pass source            *)
(* ------------------------------------------------------------------ *)

Section Shrinking.
Context {T : Type}.
Variable moved_from_size : range T -> option Z.

Lemma op_incr_target_size (s s' : store T) :
  ForwardIterator (rtype (urange (host s))) = false ->
  op_incr true s = Ok s' ->
  target_size (host s') = wrap (target_size (host s) - 1).
Proof.
  unfold op_incr. intros Hsp.
  destruct (base (it s)); [discriminate|].
  rewrite Hsp. cbn [andb negb]. now intros [= <-].
Qed.

(** C9.  Over a single-pass source with [exactly = true]: a freshly
    constructed view reports the requested count [n], and it is the view
    the adaptor returns when the source, if sized, has the [n] elements the
    caller asserts; every increment of a
    cursor lowers the [target_size] of its view by one (modulo [2^64], so by
    exactly one whenever it was positive); and wherever a traversal from
    [begin()] is stopped, the number of increments performed equals the
    number of elements handed out and [size()] of the view returns [n]
    minus that number. *)
Theorem size_follows_increments (or_throw : bool) (r : range T) (n : Z)
        (v : view_take T) :
  ForwardIterator (rtype r) = false ->
  is_size_t n ->
  view_take_ctor moved_from_size true or_throw r n = Ok v ->
  view_size true v = Some n /\
  ((SizedRange (rtype r) = true -> n <= size r) ->
   take_fn moved_from_size true or_throw r n = Ok (general v)) /\
  (forall s s' : store T,
      ForwardIterator (rtype (urange (host s))) = false ->
      op_incr true s = Ok s' ->
      target_size (host s') = wrap (target_size (host s) - 1) /\
      (0 < target_size (host s) < size_t_modulus ->
       target_size (host s') = target_size (host s) - 1)) /\
  (forall fuel : nat,
      let tr := traverse true or_throw fuel v in
      pos (it (final tr)) = Z.of_nat (length (yielded tr)) /\
      view_size true (host (final tr))
      = Some (n - Z.of_nat (length (yielded tr)))).
Proof.
  intros Hsp Hn Hctor.
  assert (Hv : v = mk_view_take r n).
  { unfold view_take_ctor in Hctor.
    destruct (true && or_throw && SizedRange (rtype r));
      [destruct (size_after_move moved_from_size r) as [moved_size|];
       [destruct (moved_size <? n); [discriminate|]|discriminate]|];
      now injection Hctor as <-. }
  subst v. split; [reflexivity|]. split; [|split].
  - intros Hfit. unfold take_fn.
    assert (Hchecked :
              (if SizedRange (rtype r)
               then if or_throw
                    then if size r <? n then Throw invalid_argument else Ok n
                    else Ok (Z.min n (size r))
               else Ok n) = Ok n).
    { destruct (SizedRange (rtype r)); [specialize (Hfit eq_refl)|reflexivity].
      destruct or_throw.
      - destruct (Z.ltb_spec (size r) n); [lia|reflexivity].
      - now rewrite Z.min_l. }
    rewrite Hchecked, Hctor.
    destruct (rtype r) as [| |st sz fw]; try discriminate.
    destruct st; try discriminate.
    cbn [ForwardingRange ContiguousRange RandomAccessRange].
    now rewrite !andb_false_r.
  - intros s s' Hs Hincr.
    pose proof (op_incr_target_size s s' Hs Hincr) as Hts.
    split; [exact Hts|]. intros Hpos. rewrite Hts.
    apply wrap_small. unfold is_size_t. lia.
  - intros fuel tr. subst tr.
    assert (Hshr : shrinks true (mk_view_take r n) = true).
    { unfold shrinks. cbn [urange]. now rewrite Hsp. }
    destruct (Nat.le_gt_cases fuel (steps n 0 (elems r))) as [Hle|Hgt].
    + unfold traverse, begin_. cbn [urange target_size].
      rewrite for_each_take_prefix;
        [|assumption|unfold is_size_t in Hn; lia|assumption|assumption].
      cbn [final yielded it host pos app]. unfold host_after. rewrite Hshr.
      cbn [view_size target_size].
      rewrite steps_0 in Hle. rewrite length_firstn.
      rewrite Nat.min_l by lia. split; [lia|].
      f_equal. apply wrap_small. unfold is_size_t in *. lia.
    + rewrite traverse_take by assumption.
      cbn [urange target_size final yielded it host pos].
      unfold host_after. rewrite Hshr. cbn [view_size target_size].
      rewrite steps_0 in *. rewrite length_firstn.
      replace (Init.Nat.min (Nat.min (Z.to_nat n) (length (elems r)))
                            (length (elems r)))
        with (Nat.min (Z.to_nat n) (length (elems r))) by lia.
      split; [reflexivity|].
      f_equal. apply wrap_small. unfold is_size_t in *. lia.
Qed.

End Shrinking.

Lemma size_follows_increments_witness :
  view_size true
    (host (final (traverse true false 2
                    (mk_view_take
                       (mk_range (other input_only false false)
                                 [1; 2; 3; 4]%nat) 3))))
  = Some (3 - Z.of_nat
                (length (yielded
                           (traverse true false 2
                              (mk_view_take
                                 (mk_range (other input_only false false)
                                           [1; 2; 3; 4]%nat) 3))))).
Proof.
  refine (proj2 (proj2 (proj2 (proj2
            (size_follows_increments (T := nat) (fun _ => None) false
               (mk_range (other input_only false false) [1; 2; 3; 4]%nat) 3
               (mk_view_take (mk_range (other input_only false false)
                                       [1; 2; 3; 4]%nat) 3) _ _ _))) 2%nat)).
  - reflexivity.
  - unfold is_size_t, size_t_modulus. lia.
  - reflexivity.
Defined.

(* ------------------------------------------------------------------ *)
(** *** The type-erased representations against the general view       *)
(* ------------------------------------------------------------------ *)

Section Representation.
Context {T : Type}.
Variable moved_from_size : range T -> option Z.
Variables exactly or_throw : bool.

(** The general view over a forwarding source of at least [n] elements. *)
Lemma general_view_observed (r : range T) (n : Z) (fuel : nat) :
  ForwardingRange (rtype r) = true ->
  0 <= n <= size r ->
  is_size_t n ->
  (Z.to_nat n < fuel)%nat ->
  view_take_ctor moved_from_size exactly or_throw r n = Ok (mk_view_take r n) /\
  elements exactly or_throw fuel (general (mk_view_take r n))
  = (firstn (Z.to_nat n) (elems r), finished) /\
  (SizedRange (rtype r) = true ->
   size_of exactly (general (mk_view_take r n)) = Some n).
Proof.
  intros Hfw Hle Hn Hfuel. unfold size in *. split; [|split].
  - unfold view_take_ctor, size_after_move, size. rewrite Hfw.
    destruct (exactly && or_throw && SizedRange (rtype r)); [|reflexivity].
    destruct (Z.ltb_spec (Z.of_nat (length (elems r))) n); [lia|reflexivity].
  - cbn [elements].
    assert (Hsteps : steps n 0 (elems r) = Z.to_nat n)
      by (rewrite steps_0; lia).
    rewrite traverse_take; cbn [urange target_size]; rewrite ?Hsteps;
      try assumption.
    cbn [yielded how].
    destruct (Z.leb_spec n (Z.of_nat (Z.to_nat n))); [reflexivity|lia].
  - intros Hsized. cbn [size_of]. unfold view_size, size.
    cbn [target_size urange]. rewrite Hsized.
    destruct exactly; [reflexivity|]. f_equal. lia.
Qed.

(** C7.  For a sized, random-access (in particular contiguous), forwarding
    source of at least [n] elements, the adaptor returns a type-erased value
    (a string view, a span or a sub-range, never [view_take]) whose
    traversal and size are those of the general [view_take] constructed from
    the same source and count: the first [n] elements, and [n]. *)
Theorem type_erased_equals_general_view (r : range T) (n : Z) :
  SizedRange (rtype r) = true ->
  RandomAccessRange (rtype r) = true ->
  ForwardingRange (rtype r) = true ->
  0 <= n <= size r ->
  is_size_t n ->
  exists (t : take_result T) (v : view_take T),
    take_fn moved_from_size exactly or_throw r n = Ok t /\
    (forall w : view_take T, t <> general w) /\
    view_take_ctor moved_from_size exactly or_throw r n = Ok v /\
    (forall fuel : nat,
        (Z.to_nat n < fuel)%nat ->
        elements exactly or_throw fuel t
        = elements exactly or_throw fuel (general v) /\
        elements exactly or_throw fuel t
        = (firstn (Z.to_nat n) (elems r), finished)) /\
    size_of exactly t = size_of exactly (general v) /\
    size_of exactly t = Some n.
Proof.
  intros Hsized Hra Hfw Hle Hn.
  assert (Hread : forall k : Z,
             k = n ->
             read_n (elems r) (Z.to_nat k) []
             = (firstn (Z.to_nat n) (elems r), finished)).
  { intros k ->. unfold size in Hle. now rewrite read_n_firstn by lia. }
  assert (Hgen : forall fuel : nat,
             (Z.to_nat n < fuel)%nat ->
             (firstn (Z.to_nat n) (elems r), finished)
             = elements exactly or_throw fuel (general (mk_view_take r n))).
  { intros fuel Hfuel. symmetry.
    now apply (general_view_observed r n fuel Hfw Hle Hn Hfuel). }
  destruct (general_view_observed r n (S (Z.to_nat n)) Hfw Hle Hn
              (Nat.lt_succ_diag_r _))
    as (Hctor & _ & Hsize). specialize (Hsize Hsized).
  assert (Hchecked :
            (if SizedRange (rtype r)
             then if or_throw
                  then if size r <? n then Throw invalid_argument else Ok n
                  else Ok (Z.min n (size r))
             else Ok n) = Ok n).
  { rewrite Hsized. destruct or_throw.
    - destruct (Z.ltb_spec (size r) n); [lia|reflexivity].
    - f_equal. lia. }
  unfold take_fn. rewrite Hchecked.
  destruct (rtype r) as [| |st sz fw] eqn:Ety.
  - exists (string_view (elems r) (Z.min n (size r - 0))), (mk_view_take r n).
    split; [reflexivity|]. split; [discriminate|]. split; [exact Hctor|].
    split; [|split].
    + intros fuel Hfuel. rewrite <- Hgen by assumption. cbn [elements].
      split; apply Hread; lia.
    + rewrite Hsize. cbn [size_of]. f_equal. lia.
    + cbn [size_of]. f_equal. lia.
  - exists (string_view (elems r) n), (mk_view_take r n).
    split; [reflexivity|]. split; [discriminate|]. split; [exact Hctor|].
    split; [|split].
    + intros fuel Hfuel. rewrite <- Hgen by assumption. cbn [elements].
      split; apply Hread; reflexivity.
    + now rewrite Hsize.
    + reflexivity.
  - cbn [SizedRange ForwardingRange] in Hsized, Hfw. subst sz fw.
    cbn [ForwardingRange SizedRange andb].
    destruct (ContiguousRange (other st true true)) eqn:Ec.
    + exists (span (elems r) n), (mk_view_take r n).
      rewrite andb_true_r.
      split; [reflexivity|]. split; [discriminate|]. split; [exact Hctor|].
      split; [|split].
      * intros fuel Hfuel. rewrite <- Hgen by assumption. cbn [elements].
        split; apply Hread; reflexivity.
      * now rewrite Hsize.
      * reflexivity.
    + exists (subrange (elems r) n n), (mk_view_take r n).
      rewrite Hra. cbn [andb].
      split; [reflexivity|]. split; [discriminate|]. split; [exact Hctor|].
      split; [|split].
      * intros fuel Hfuel. rewrite <- Hgen by assumption. cbn [elements].
        split; apply Hread; reflexivity.
      * now rewrite Hsize.
      * reflexivity.
Qed.

End Representation.

Lemma type_erased_equals_general_view_witness :
  exists (t : take_result nat) (v : view_take nat),
    take_fn (fun _ => None) false false
      (mk_range (other contiguous true true) [1; 2; 3]%nat) 2 = Ok t /\
    (forall w : view_take nat, t <> general w) /\
    view_take_ctor (fun _ => None) false false
      (mk_range (other contiguous true true) [1; 2; 3]%nat) 2 = Ok v /\
    (forall fuel : nat,
        (Z.to_nat 2 < fuel)%nat ->
        elements false false fuel t = elements false false fuel (general v) /\
        elements false false fuel t
        = (firstn (Z.to_nat 2) [1; 2; 3]%nat, finished)) /\
    size_of false t = size_of false (general v) /\
    size_of false t = Some 2.
Proof.
  apply (type_erased_equals_general_view (T := nat) (fun _ => None) false false
           (mk_range (other contiguous true true) [1; 2; 3]%nat) 2).
  - reflexivity.
  - reflexivity.
  - reflexivity.
  - unfold size. simpl. lia.
  - unfold is_size_t, size_t_modulus. lia.
Defined.

End TakeProofs.

(* ================================================================== *)
(** ** Properties of [views::take_until]                               *)
(* ================================================================== *)

Module TakeUntilProofs.
Import TakeUntil.

Section NonConsuming.
Context {T F : Type}.
Variable invoke : F -> T -> bool * F.
Variable or_throw : bool.

(** The loop over a [basic_iterator] follows [scan]. *)
Lemma for_each_plain :
  forall (s : list T) (f : F) (out : list T) (fuel : nat),
    (length s < fuel)%nat ->
    for_each (H := take_until_cursor invoke or_throw) fuel
             (mk_store f (plain (mk_basic s))) out
    = let '(ys, zs, f') := scan invoke f s in
      mk_trace (out ++ ys) (mk_store f' (plain (mk_basic zs)))
               (match zs with
                | [] => if or_throw then raised unexpected_end_of_input
                        else finished
                | _ :: _ => finished
                end).
Proof.
  induction s as [|x rest IH]; intros f out fuel Hfuel;
    (destruct fuel as [|fuel']; [simpl in Hfuel; lia|]).
  - simpl. unfold op_eq_sentinel, sentinel_eq. simpl.
    rewrite app_nil_r. now destruct or_throw.
  - cbn [for_each at_sentinel take_until_cursor].
    unfold op_eq_sentinel, sentinel_eq. cbn [it fn base scan].
    destruct (invoke f x) as [r f1]. destruct r.
    + now rewrite app_nil_r.
    + cbn [dereference increment take_until_cursor].
      unfold op_deref, op_incr. cbn [it position base basic_incr fn].
      rewrite IH by (simpl in Hfuel; lia).
      destruct (scan invoke f1 rest) as [[ys zs] f2].
      now rewrite <- app_assoc.
Qed.

(** What [scan] returns for a regular functor. *)
Lemma scan_regular (p : T -> bool) (f : F) :
  regular invoke f p ->
  forall (s ys zs : list T) (f' : F),
    scan invoke f s = (ys, zs, f') ->
    f' = f /\ s = ys ++ zs /\
    Forall (fun y => p y = false) ys /\
    match zs with [] => True | z :: _ => p z = true end.
Proof.
  intros Hreg. induction s as [|x rest IH]; intros ys zs f' Hscan.
  - injection Hscan as <- <- <-. auto.
  - cbn [scan] in Hscan. rewrite Hreg in Hscan.
    destruct (p x) eqn:Hpx.
    + injection Hscan as <- <- <-. auto.
    + destruct (scan invoke f rest) as [[ys' zs'] f''] eqn:E.
      injection Hscan as <- <- <-.
      destruct (IH ys' zs' f'' eq_refl) as (-> & -> & Hall & Hz).
      auto.
Qed.

End NonConsuming.

Section UpToFirstMatch.
Context {T F : Type}.
Variable invoke : F -> T -> bool * F.

(** C2.  The non-throwing view with a plain cursor (the source is a forward
    range or [and_consume] is unset) finishes having handed out the
    elements in front of the first one on which the functor, invoked once
    per element in order, answers true, and leaves the underlying position
    at that element; all of [s] if it never does.  For a regular predicate
    [p]: the result is a prefix of [s] on which [p] is false throughout, and
    the element right after it, if any, satisfies [p]. *)
Theorem take_until_yields_up_to_first_match
        (and_consume : bool) (v : view_take_until T F) (fuel : nat) :
  and_consume && negb (forward_range (urange v)) = false ->
  (length (elems (urange v)) < fuel)%nat ->
  exists (ys zs : list T) (f' : F),
    scan invoke (functor v) (elems (urange v)) = (ys, zs, f') /\
    yielded (traverse invoke false and_consume fuel v) = ys /\
    how (traverse invoke false and_consume fuel v) = finished /\
    position (it (final (traverse invoke false and_consume fuel v))) = zs /\
    (forall p : T -> bool,
        regular invoke (functor v) p ->
        elems (urange v) = ys ++ zs /\
        Forall (fun y => p y = false) ys /\
        match zs with [] => True | z :: _ => p z = true end).
Proof.
  intros Hplain Hfuel.
  destruct (scan invoke (functor v) (elems (urange v))) as [[ys zs] f'] eqn:E.
  exists ys, zs, f'. split; [reflexivity|].
  unfold traverse, begin_. rewrite Hplain.
  rewrite for_each_plain by assumption. rewrite E.
  cbn [yielded how final it position base app].
  split; [reflexivity|]. split; [now destruct zs|]. split; [reflexivity|].
  intros p Hreg.
  now destruct (scan_regular invoke p _ Hreg _ _ _ _ E) as (_ & ? & ? & ?).
Qed.

End UpToFirstMatch.

Lemma take_until_yields_up_to_first_match_witness :
  exists (ys zs : list nat) (f' : unit),
    scan (fun (f : unit) (x : nat) => (Nat.eqb x 0, f)) tt [3; 1; 0; 2; 0]%nat
    = (ys, zs, f') /\
    yielded (traverse (fun (f : unit) (x : nat) => (Nat.eqb x 0, f)) false false 6
               (mk_view (mk_range true [3; 1; 0; 2; 0]%nat) tt)) = ys /\
    ys = [3; 1]%nat /\ zs = [0; 2; 0]%nat.
Proof.
  destruct (take_until_yields_up_to_first_match
              (fun (f : unit) (x : nat) => (Nat.eqb x 0, f)) false
              (mk_view (mk_range true [3; 1; 0; 2; 0]%nat) tt) 6)
    as (ys & zs & f' & Hscan & Hy & _).
  - reflexivity.
  - simpl. lia.
  - exists ys, zs, f'. split; [exact Hscan|]. split; [exact Hy|].
    cbn in Hscan. injection Hscan as <- <- _. split; reflexivity.
Defined.

(* ------------------------------------------------------------------ *)
(** *** Repeated comparison                                            *)
(* ------------------------------------------------------------------ *)

Section Idempotence.
Context {T F : Type}.
Variable invoke : F -> T -> bool * F.
Variable or_throw : bool.

Lemma op_eq_sentinel_regular (f : F) (p : T -> bool) (i : basic_iterator T) :
  regular invoke f p ->
  op_eq_sentinel invoke or_throw (mk_store f (plain i))
  = (match base i with
     | [] => if or_throw then Throw unexpected_end_of_input else Ok true
     | x :: _ => Ok (p x)
     end, mk_store f (plain i)).
Proof.
  intros Hreg. unfold op_eq_sentinel, sentinel_eq. cbn [it fn].
  destruct (base i) as [|x rest].
  - now destruct or_throw.
  - now rewrite Hreg.
Qed.

(** C8.  With a regular predicate, comparing a non-consuming cursor with
    the sentinel [k] times in a row gives [k] times the outcome of the
    first comparison, and leaves the cursor, its underlying position and
    the functor as they were. *)
Theorem sentinel_comparison_repeatable
        (f : F) (p : T -> bool) (i : basic_iterator T) (k : nat) :
  regular invoke f p ->
  compare_repeatedly invoke or_throw k (mk_store f (plain i))
  = (repeat (fst (op_eq_sentinel invoke or_throw (mk_store f (plain i)))) k,
     mk_store f (plain i)).
Proof.
  intros Hreg. induction k as [|k IH]; [reflexivity|].
  cbn [compare_repeatedly repeat].
  rewrite (op_eq_sentinel_regular f p i Hreg) in *.
  rewrite IH. reflexivity.
Qed.

End Idempotence.

Lemma sentinel_comparison_repeatable_witness :
  compare_repeatedly (fun (f : unit) (x : nat) => (Nat.eqb x 0, f)) false 3
    (mk_store tt (plain (mk_basic [0; 5]%nat)))
  = ([Ok true; Ok true; Ok true], mk_store tt (plain (mk_basic [0; 5]%nat))).
Proof.
  apply (sentinel_comparison_repeatable
           (fun (f : unit) (x : nat) => (Nat.eqb x 0, f)) false
           tt (fun x => Nat.eqb x 0) (mk_basic [0; 5]%nat) 3).
  intros x. reflexivity.
Defined.

(* ------------------------------------------------------------------ *)
(** *** The consuming cursor                                           *)
(* ------------------------------------------------------------------ *)

Section Consuming.
Context {T F : Type}.
Variable invoke : F -> T -> bool * F.

(** C3.  On the single-pass source [[a; b; c; d]] with a predicate that is
    true on [b] and [c] and false on [a] and [d], the consuming view hands
    out exactly [[a]] and finishes, and the underlying position is then at
    [d]. *)
Theorem consuming_view_skips_matching_run
        (or_throw : bool) (a b c d : T) (f : F) (fuel : nat) :
  (forall g : F, fst (invoke g a) = false) ->
  (forall g : F, fst (invoke g b) = true) ->
  (forall g : F, fst (invoke g c) = true) ->
  (forall g : F, fst (invoke g d) = false) ->
  (1 < fuel)%nat ->
  let tr := traverse invoke or_throw true fuel
              (mk_view (mk_range false [a; b; c; d]) f) in
  yielded tr = [a] /\ how tr = finished /\ position (it (final tr)) = [d] /\
  it (final tr) = consuming (mk_consume [d] true).
Proof.
  intros Ha Hb Hc Hd Hfuel tr. subst tr.
  destruct fuel as [|[|fuel]]; try lia.
  unfold traverse, begin_, consume_ctor.
  cbn [andb negb forward_range urange elems functor].
  pose proof (Ha f) as E0. destruct (invoke f a) as [r0 f0].
  cbn [fst] in E0. subst r0.
  cbn [for_each at_sentinel take_until_cursor].
  unfold op_eq_sentinel, consume_eq. cbn [it fn at_end_gracefully cbase].
  pose proof (Ha f0) as E1. destruct (invoke f0 a) as [r1 f1].
  cbn [fst] in E1. subst r1.
  cbn [dereference increment take_until_cursor].
  unfold op_deref, op_incr, consume_incr.
  cbn [it fn position cbase at_end_gracefully consume_run].
  pose proof (Hb f1) as E2. destruct (invoke f1 b) as [r2 f2].
  cbn [fst] in E2. subst r2.
  pose proof (Hc f2) as E3. destruct (invoke f2 c) as [r3 f3].
  cbn [fst] in E3. subst r3.
  pose proof (Hd f3) as E4. destruct (invoke f3 d) as [r4 f4].
  cbn [fst] in E4. subst r4.
  cbn [it fn at_end_gracefully app yielded how final position cbase].
  repeat split.
Qed.

(** The loop body of [operator++] stops at once in front of an element on
    which the functor answers false. *)
Lemma consume_run_stops (s : list T) (f : F) (g : bool) :
  (forall (h : F) (x : T), In x s -> fst (invoke h x) = false) ->
  exists f' : F, consume_run invoke s f g = (f', mk_consume s g).
Proof.
  intros Hno. destruct s as [|x rest]; cbn [consume_run].
  - now exists f.
  - pose proof (Hno f x (or_introl eq_refl)) as E.
    destruct (invoke f x) as [r f']. cbn [fst] in E. subst r.
    now exists f'.
Qed.

(** Traversal, plain or consuming, when the functor never answers true. *)
Lemma for_each_no_match (or_throw : bool) :
  forall (s : list T) (consume : bool) (f : F) (out : list T) (fuel : nat),
    (forall (h : F) (x : T), In x s -> fst (invoke h x) = false) ->
    exists f' : F,
      for_each (H := take_until_cursor invoke or_throw) fuel
        (mk_store f (if consume then consuming (mk_consume s false)
                     else plain (mk_basic s))) out
      = mk_trace (out ++ firstn fuel s)
          (mk_store f' (if consume
                        then consuming (mk_consume (skipn fuel s) false)
                        else plain (mk_basic (skipn fuel s))))
          (if (fuel <=? length s)%nat then out_of_fuel
           else if or_throw then raised unexpected_end_of_input
                else finished).
Proof.
  induction s as [|x rest IH]; intros consume f out fuel Hno.
  - exists f. destruct fuel as [|fuel]; cbn [for_each firstn skipn];
      rewrite app_nil_r; [reflexivity|].
    unfold at_sentinel, take_until_cursor, op_eq_sentinel,
      sentinel_eq, consume_eq.
    destruct consume, or_throw; reflexivity.
  - destruct fuel as [|fuel].
    { exists f. cbn [for_each firstn skipn]. now rewrite app_nil_r. }
    assert (Hrest : forall (h : F) (y : T), In y rest -> fst (invoke h y) = false).
    { intros h y Hy. apply Hno. now right. }
    pose proof (Hno f x (or_introl eq_refl)) as E.
    destruct consume.
    + cbn [for_each at_sentinel take_until_cursor].
      unfold op_eq_sentinel, consume_eq. cbn [it fn at_end_gracefully cbase].
      destruct (invoke f x) as [r f1]. cbn [fst] in E. subst r.
      cbn [dereference increment take_until_cursor].
      unfold op_deref, op_incr, consume_incr.
      cbn [it fn position cbase at_end_gracefully].
      destruct (consume_run_stops rest f1 false Hrest) as [f2 ->].
      destruct (IH true f2 (out ++ [x]) fuel Hrest) as [f' ->].
      exists f'. cbn [firstn skipn length Nat.leb].
      now rewrite <- app_assoc.
    + cbn [for_each at_sentinel take_until_cursor].
      unfold op_eq_sentinel, sentinel_eq. cbn [it fn base].
      destruct (invoke f x) as [r f1]. cbn [fst] in E. subst r.
      cbn [dereference increment take_until_cursor].
      unfold op_deref, op_incr, basic_incr. cbn [it fn position base].
      destruct (IH false f1 (out ++ [x]) fuel Hrest) as [f' ->].
      exists f'. cbn [firstn skipn length Nat.leb].
      now rewrite <- app_assoc.
Qed.

(** [begin()] when the first element, if any, does not match. *)
Lemma begin_no_match (and_consume : bool) (v : view_take_until T F) :
  (forall (h : F) (x : T),
      In x (elems (urange v)) -> fst (invoke h x) = false) ->
  exists f' : F,
    begin_ invoke and_consume v
    = Ok (mk_store f'
            (if and_consume && negb (forward_range (urange v))
             then consuming (mk_consume (elems (urange v)) false)
             else plain (mk_basic (elems (urange v))))).
Proof.
  intros Hno. unfold begin_.
  destruct (and_consume && negb (forward_range (urange v))).
  - unfold consume_ctor. destruct (elems (urange v)) as [|x rest].
    + now exists (functor v).
    + pose proof (Hno (functor v) x (or_introl eq_refl)) as E.
      destruct (invoke (functor v) x) as [r f']. cbn [fst] in E. subst r.
      now exists f'.
  - now exists (functor v).
Qed.

(** C6.  If the functor answers false on every element of [s], the view
    with [or_throw = true] (plain or consuming cursor) does not stop within
    the first [length s] rounds, each handing out the next element of [s],
    and the comparison opening the next round throws
    [unexpected_end_of_input], all of [s] having been handed out.  On an
    empty [s] that is the very first comparison, on the cursor [begin()]
    returns; with [or_throw = false] the traversal of an empty [s] finishes
    with nothing handed out. *)
Theorem no_match_raises_after_all_elements
        (and_consume : bool) (v : view_take_until T F) :
  (forall (h : F) (x : T),
      In x (elems (urange v)) -> fst (invoke h x) = false) ->
  (forall fuel : nat,
      (fuel <= length (elems (urange v)))%nat ->
      yielded (traverse invoke true and_consume fuel v)
      = firstn fuel (elems (urange v)) /\
      how (traverse invoke true and_consume fuel v) = out_of_fuel) /\
  (forall fuel : nat,
      (length (elems (urange v)) < fuel)%nat ->
      yielded (traverse invoke true and_consume fuel v) = elems (urange v) /\
      how (traverse invoke true and_consume fuel v)
      = raised unexpected_end_of_input /\
      position (it (final (traverse invoke true and_consume fuel v))) = [] /\
      fst (op_eq_sentinel invoke true
             (final (traverse invoke true and_consume fuel v)))
      = Throw unexpected_end_of_input) /\
  (elems (urange v) = [] ->
   forall fuel : nat,
     (0 < fuel)%nat ->
     (exists st : store T F,
         begin_ invoke and_consume v = Ok st /\
         fst (op_eq_sentinel invoke true st) = Throw unexpected_end_of_input) /\
     yielded (traverse invoke true and_consume fuel v) = [] /\
     how (traverse invoke true and_consume fuel v)
     = raised unexpected_end_of_input /\
     yielded (traverse invoke false and_consume fuel v) = [] /\
     how (traverse invoke false and_consume fuel v) = finished).
Proof.
  intros Hno.
  destruct (begin_no_match and_consume v Hno) as [f0 Hbegin].
  set (consume := and_consume && negb (forward_range (urange v))) in *.
  assert (Hrun : forall (ot : bool) (fuel : nat),
             exists f' : F,
               traverse invoke ot and_consume fuel v
               = mk_trace (firstn fuel (elems (urange v)))
                   (mk_store f'
                      (if consume
                       then consuming
                              (mk_consume (skipn fuel (elems (urange v))) false)
                       else plain (mk_basic (skipn fuel (elems (urange v))))))
                   (if (fuel <=? length (elems (urange v)))%nat
                    then out_of_fuel
                    else if ot then raised unexpected_end_of_input
                         else finished)).
  { intros ot fuel. unfold traverse. rewrite Hbegin.
    destruct (for_each_no_match ot (elems (urange v)) consume f0 [] fuel Hno)
      as [f' ->].
    now exists f'. }
  split; [|split].
  - intros fuel Hfuel. destruct (Hrun true fuel) as [f' ->].
    cbn [yielded how].
    destruct (Nat.leb_spec fuel (length (elems (urange v)))); [|lia].
    split; reflexivity.
  - intros fuel Hfuel. destruct (Hrun true fuel) as [f' ->].
    cbn [yielded how final it].
    destruct (Nat.leb_spec fuel (length (elems (urange v)))); [lia|].
    rewrite firstn_all2, skipn_all2 by lia.
    destruct consume; repeat split.
  - intros Hempty fuel Hfuel. split; [|split; [|split; [|split]]].
    + eexists. split; [exact Hbegin|]. rewrite Hempty.
      destruct consume; reflexivity.
    + destruct (Hrun true fuel) as [f' ->]. rewrite Hempty.
      now rewrite firstn_nil.
    + destruct (Hrun true fuel) as [f' ->]. rewrite Hempty. cbn [how length].
      destruct (Nat.leb_spec fuel 0); [lia|reflexivity].
    + destruct (Hrun false fuel) as [f' ->]. rewrite Hempty.
      now rewrite firstn_nil.
    + destruct (Hrun false fuel) as [f' ->]. rewrite Hempty. cbn [how length].
      destruct (Nat.leb_spec fuel 0); [lia|reflexivity].
Qed.

Lemma consume_run_regular (f : F) (p : T -> bool) :
  regular invoke f p ->
  forall (s : list T) (g : bool),
  exists i : basic_consume_iterator T,
    consume_run invoke s f g = (f, i) /\
    match cbase i with [] => True | x :: _ => p x = false end.
Proof.
  intros Hreg. induction s as [|x rest IH]; intros g; cbn [consume_run].
  - eexists. split; [reflexivity|exact I].
  - rewrite Hreg. destruct (p x) eqn:Hpx.
    + apply IH.
    + eexists. split; [reflexivity|exact Hpx].
Qed.

(** C10 (amended).  For a regular predicate: the constructor always
    returns, and so does the increment of a cursor that is not at the
    underlying end; after either, the functor is unchanged and, unless the
    cursor has ended gracefully or the underlying range is exhausted, the
    element pointed to does not satisfy the predicate.  On such a cursor the
    comparison with the sentinel never gets a true answer from its final
    evaluation of the predicate: it returns false exactly when the cursor has
    not ended gracefully and the underlying range is not exhausted; it
    returns true when the cursor has ended gracefully, and also at the
    underlying end when [or_throw] is unset; at the underlying end without a
    graceful end and with [or_throw] set it throws
    [unexpected_end_of_input]. *)
Theorem consuming_cursor_invariant (or_throw : bool) (f : F) (p : T -> bool) :
  regular invoke f p ->
  (forall b : list T,
      exists i : basic_consume_iterator T,
        consume_ctor invoke b f = Ok (f, i) /\ consume_inv p i) /\
  (forall i : basic_consume_iterator T,
      cbase i <> [] ->
      exists i' : basic_consume_iterator T,
        consume_incr invoke f i = Ok (f, i') /\ consume_inv p i') /\
  (forall (i : basic_consume_iterator T) (r : F * basic_consume_iterator T),
      consume_incr invoke f i = Ok r -> fst r = f /\ consume_inv p (snd r)) /\
  (forall i : basic_consume_iterator T,
      consume_inv p i ->
      consume_eq invoke or_throw f i
      = (if at_end_gracefully i then Ok true
         else match cbase i with
              | [] => if or_throw then Throw unexpected_end_of_input
                      else Ok true
              | _ :: _ => Ok false
              end, f)) /\
  (forall i : basic_consume_iterator T,
      consume_inv p i ->
      (fst (consume_eq invoke or_throw f i) = Ok false <->
       at_end_gracefully i = false /\ cbase i <> []) /\
      (fst (consume_eq invoke or_throw f i) = Ok true <->
       at_end_gracefully i = true \/ (cbase i = [] /\ or_throw = false)) /\
      (fst (consume_eq invoke or_throw f i) = Throw unexpected_end_of_input <->
       at_end_gracefully i = false /\ cbase i = [] /\ or_throw = true)).
Proof.
  intros Hreg.
  assert (Hincr : forall i : basic_consume_iterator T,
             cbase i <> [] ->
             exists i' : basic_consume_iterator T,
               consume_incr invoke f i = Ok (f, i') /\ consume_inv p i').
  { intros i Hne. unfold consume_incr.
    destruct (cbase i) as [|x rest]; [contradiction|].
    destruct (consume_run_regular f p Hreg rest (at_end_gracefully i))
      as (i' & -> & Hi').
    exists i'. split; [reflexivity|]. intros _. exact Hi'. }
  assert (Heq : forall i : basic_consume_iterator T,
             consume_inv p i ->
             consume_eq invoke or_throw f i
             = (if at_end_gracefully i then Ok true
                else match cbase i with
                     | [] => if or_throw then Throw unexpected_end_of_input
                             else Ok true
                     | _ :: _ => Ok false
                     end, f)).
  { intros i Hinv. unfold consume_eq, consume_inv in *.
    destruct (at_end_gracefully i); [reflexivity|].
    destruct (cbase i) as [|x rest]; [now destruct or_throw|].
    now rewrite Hreg, Hinv. }
  split; [|split; [exact Hincr|split; [|split; [exact Heq|]]]].
  - intros b. unfold consume_ctor. destruct b as [|x rest].
    + eexists. split; [reflexivity|]. intros _. exact I.
    + rewrite Hreg. destruct (p x) eqn:Hpx.
      * apply Hincr. discriminate.
      * eexists. split; [reflexivity|]. intros _. exact Hpx.
  - intros i r Hr.
    destruct (cbase i) as [|x rest] eqn:Hb.
    + unfold consume_incr in Hr. rewrite Hb in Hr. discriminate.
    + destruct (Hincr i) as (i' & Hi' & Hinv); [rewrite Hb; discriminate|].
      rewrite Hi' in Hr. injection Hr as <-. split; [reflexivity|exact Hinv].
  - intros i Hinv. rewrite (Heq i Hinv). cbn [fst].
    destruct (at_end_gracefully i), (cbase i) as [|x rest], or_throw;
      repeat split; intros; try discriminate; try tauto;
      try (left; reflexivity);
      try (right; split; reflexivity);
      repeat match goal with
             | H : _ /\ _ |- _ => destruct H
             | H : _ \/ _ |- _ => destruct H
             end;
      try discriminate; try congruence.
Qed.

End Consuming.

Lemma consuming_view_skips_matching_run_witness :
  yielded (traverse (fun (f : unit) (x : nat) => (Nat.even x, f)) false true 2
             (mk_view (mk_range false [1; 2; 4; 7]%nat) tt)) = [1]%nat /\
  position (it (final
             (traverse (fun (f : unit) (x : nat) => (Nat.even x, f)) false true 2
                (mk_view (mk_range false [1; 2; 4; 7]%nat) tt)))) = [7]%nat.
Proof.
  destruct (consuming_view_skips_matching_run
              (fun (f : unit) (x : nat) => (Nat.even x, f)) false
              1%nat 2%nat 4%nat 7%nat tt 2)
    as (Hy & _ & Hp & _).
  - intros g. reflexivity.
  - intros g. reflexivity.
  - intros g. reflexivity.
  - intros g. reflexivity.
  - lia.
  - split; [exact Hy|exact Hp].
Defined.

Lemma no_match_raises_after_all_elements_witness :
  yielded (traverse (fun (f : unit) (x : nat) => (Nat.eqb x 0, f)) true true 4
             (mk_view (mk_range false [5; 6; 7]%nat) tt)) = [5; 6; 7]%nat /\
  how (traverse (fun (f : unit) (x : nat) => (Nat.eqb x 0, f)) true true 4
         (mk_view (mk_range false [5; 6; 7]%nat) tt))
  = raised unexpected_end_of_input.
Proof.
  destruct (no_match_raises_after_all_elements
              (fun (f : unit) (x : nat) => (Nat.eqb x 0, f)) true
              (mk_view (mk_range false [5; 6; 7]%nat) tt))
    as (_ & Hrun & _).
  - intros h x [<-|[<-|[<-|[]]]]; reflexivity.
  - destruct (Hrun 4%nat) as (Hy & Hh & _); [simpl; lia|].
    split; [exact Hy|exact Hh].
Defined.

Lemma consuming_cursor_invariant_witness :
  exists i : basic_consume_iterator nat,
    consume_ctor (fun (f : unit) (x : nat) => (Nat.even x, f)) [2; 4; 7]%nat tt
    = Ok (tt, i) /\
    consume_inv Nat.even i.
Proof.
  refine (proj1 (consuming_cursor_invariant
                   (fun (f : unit) (x : nat) => (Nat.even x, f)) false
                   tt Nat.even _) [2; 4; 7]%nat).
  intros x. reflexivity.
Defined.

(** Under [or_throw], the comparison of a freshly constructed consuming
    cursor over an empty source throws instead of returning true. *)
Lemma consuming_comparison_throws_at_end :
  consume_ctor (fun (f : unit) (x : nat) => (Nat.even x, f)) [] tt
  = Ok (tt, mk_consume [] false) /\
  consume_eq (fun (f : unit) (x : nat) => (Nat.even x, f)) true tt
             (mk_consume [] false)
  = (Throw unexpected_end_of_input, tt) /\
  ~ (forall (or_throw : bool) (i : basic_consume_iterator nat),
        consume_inv Nat.even i ->
        (fst (consume_eq (fun (f : unit) (x : nat) => (Nat.even x, f))
                         or_throw tt i) = Ok true <->
         at_end_gracefully i = true \/ cbase i = [])).
Proof.
  split; [reflexivity|]. split; [reflexivity|].
  intros H.
  destruct (H true (mk_consume [] false)) as (_ & Hback).
  - intros _. exact I.
  - specialize (Hback (or_intror eq_refl)). discriminate.
Qed.

End TakeUntilProofs.

(* ================================================================== *)
(** ** Further properties of [views::take_until]                       *)
(* ================================================================== *)

Module TakeUntilMore.
Import TakeUntil TakeUntilProofs.

Section AnyFunctor.
Context {T F : Type}.
Variable invoke : F -> T -> bool * F.
Variable or_throw : bool.

(** The loop of the consuming increment either does not move, or sets the
    flag and stops further on. *)
Lemma consume_run_cases (b : list T) :
  forall (h : F) (g : bool),
    (exists h' : F, consume_run invoke b h g = (h', mk_consume b g)) \/
    (exists (h' : F) (i' : basic_consume_iterator T),
        consume_run invoke b h g = (h', i') /\
        at_end_gracefully i' = true /\
        (length (cbase i') <= length b)%nat).
Proof.
  induction b as [|y b IH]; intros h g; cbn [consume_run].
  - left. now exists h.
  - destruct (invoke h y) as [r h1]. destruct r.
    + right. destruct (IH h1 true) as [[h' E]|(h' & i' & E & Hg & Hlen)].
      * exists h', (mk_consume b true). rewrite E.
        cbn [cbase at_end_gracefully length]. repeat split. lia.
      * exists h', i'. rewrite E. cbn [length]. repeat split; [assumption|lia].
    + left. now exists h1.
Qed.

(** A comparison that answers false leaves a cursor that can be
    dereferenced and incremented. *)
Lemma compared_unequal_step (s s1 : store T F) :
  op_eq_sentinel invoke or_throw s = (Ok false, s1) ->
  it s1 = it s /\
  exists (x : T) (rest : list T) (s2 : store T F),
    position (it s) = x :: rest /\
    op_deref s1 = Ok x /\ op_incr invoke s1 = Ok s2 /\
    ((position (it s2) = rest /\
      match it s, it s2 with
      | plain _, plain _ => True
      | consuming i, consuming i' =>
          at_end_gracefully i' = at_end_gracefully i
      | _, _ => False
      end) \/
     (exists i' : basic_consume_iterator T,
         it s2 = consuming i' /\ at_end_gracefully i' = true /\
         (length (cbase i') <= length rest)%nat)).
Proof.
  unfold op_eq_sentinel, op_deref, op_incr.
  destruct s as [f [i|i]]; cbn [it fn].
  - unfold sentinel_eq, basic_incr. destruct i as [b]. cbn [base].
    destruct b as [|x rest]; [destruct or_throw; discriminate|].
    destruct (invoke f x) as [r f1]. intros [= -> <-]. cbn [it position base fn].
    split; [reflexivity|]. exists x, rest. eexists.
    repeat split. left. split; reflexivity.
  - unfold consume_eq, consume_incr. destruct i as [b g].
    cbn [cbase at_end_gracefully].
    destruct g; [discriminate|].
    destruct b as [|x rest]; [destruct or_throw; discriminate|].
    destruct (invoke f x) as [r f1]. intros [= -> <-].
    cbn [it position cbase fn at_end_gracefully].
    split; [reflexivity|]. exists x, rest.
    destruct (consume_run_cases rest f1 false) as [[h' E]|(h' & i' & E & Hg & Hlen)];
      rewrite E; eexists; repeat split.
    + left. split; reflexivity.
    + right. exists i'. repeat split; assumption.
Qed.

(** A cursor that has ended gracefully hands out nothing more. *)
Lemma for_each_graceful (f : F) (i : basic_consume_iterator T)
      (out : list T) (fuel : nat) :
  at_end_gracefully i = true ->
  for_each (H := take_until_cursor invoke or_throw) fuel
           (mk_store f (consuming i)) out
  = mk_trace out (mk_store f (consuming i))
             (match fuel with O => out_of_fuel | S _ => finished end).
Proof.
  intros Hg. destruct fuel as [|fuel]; [reflexivity|].
  cbn [for_each at_sentinel take_until_cursor].
  unfold op_eq_sentinel, consume_eq. cbn [it fn]. now rewrite Hg.
Qed.

(** The loop from any cursor: no undefined behaviour, an exception only
    under [or_throw] and only at the underlying end, an end within
    [length + 1] rounds, and only a prefix of what is left handed out. *)
Lemma for_each_take_until_safe (fuel : nat) :
  forall (s : store T F) (out : list T),
    let tr := for_each (H := take_until_cursor invoke or_throw) fuel s out in
    how tr <> undefined_behaviour /\
    (forall e : exception,
        how tr = raised e ->
        or_throw = true /\ e = unexpected_end_of_input /\
        position (it (final tr)) = []) /\
    ((length (position (it s)) < fuel)%nat -> how tr <> out_of_fuel) /\
    exists k : nat, yielded tr = out ++ firstn k (position (it s)).
Proof.
  induction fuel as [|fuel IH]; intros s out tr; subst tr.
  - cbn [for_each how yielded]. repeat split; try discriminate; try lia.
    exists 0%nat. now rewrite app_nil_r.
  - cbn [for_each at_sentinel dereference increment take_until_cursor].
    destruct (op_eq_sentinel invoke or_throw s) as [[[|] | e |] s1] eqn:Hcmp.
    + (* at the end *)
      cbn [how yielded]. repeat split; try discriminate.
      exists 0%nat. now rewrite app_nil_r.
    + destruct (compared_unequal_step s s1 Hcmp)
        as (Hit & x & rest & s2 & Hpos & Hderef & Hincr & Hnext).
      rewrite Hderef, Hincr. rewrite Hpos.
      destruct Hnext as [[Hrest _]|(i' & Hi' & Hg & Hlen)].
      * destruct (IH s2 (out ++ [x])) as (Hub & Hraise & Hfuel & k & Hy).
        rewrite Hrest in *.
        split; [exact Hub|]. split; [exact Hraise|].
        split; [intros Hlt; apply Hfuel; cbn [length] in Hlt; lia|].
        exists (S k). rewrite Hy, <- app_assoc. reflexivity.
      * destruct s2 as [f2 it2]. cbn [it] in Hi'. subst it2.
        rewrite for_each_graceful by assumption.
        cbn [how yielded final it position].
        split; [now destruct fuel|].
        split; [intros e; now destruct fuel|].
        split; [intros Hlt; cbn [length] in Hlt; destruct fuel; [lia|discriminate]|].
        exists 1%nat. reflexivity.
    + (* the comparison throws *)
      cbn [how yielded final].
      assert (Hthrow : or_throw = true /\ e = unexpected_end_of_input /\
                       position (it s1) = []).
      { unfold op_eq_sentinel, sentinel_eq, consume_eq in Hcmp.
        destruct s as [f [[b]|[b g]]]; cbn [it fn base cbase at_end_gracefully] in Hcmp.
        - destruct b as [|x rest];
            [destruct or_throw; [|discriminate]; injection Hcmp as <- <-; auto|].
          destruct (invoke f x); discriminate.
        - destruct g; [discriminate|].
          destruct b as [|x rest];
            [destruct or_throw; [|discriminate]; injection Hcmp as <- <-; auto|].
          destruct (invoke f x); discriminate. }
      split; [discriminate|].
      split; [intros e' [= <-]; exact Hthrow|].
      split; [discriminate|].
      exists 0%nat. now rewrite app_nil_r.
    + (* the comparison is never undefined *)
      exfalso. unfold op_eq_sentinel, sentinel_eq, consume_eq in Hcmp.
      destruct s as [f [[b]|[b g]]]; cbn [it fn base cbase at_end_gracefully] in Hcmp.
      * destruct b as [|x rest]; [destruct or_throw; discriminate|].
        destruct (invoke f x); discriminate.
      * destruct g; [discriminate|].
        destruct b as [|x rest]; [destruct or_throw; discriminate|].
        destruct (invoke f x); discriminate.
Qed.

(** [begin()] always returns a cursor: at the start of the source, or
    gracefully ended behind a leading run of matches. *)
Lemma begin_defined (and_consume : bool) (v : view_take_until T F) :
  exists st : store T F,
    begin_ invoke and_consume v = Ok st /\
    (position (it st) = elems (urange v) \/
     exists i : basic_consume_iterator T,
       it st = consuming i /\ at_end_gracefully i = true /\
       (length (cbase i) <= length (elems (urange v)))%nat).
Proof.
  unfold begin_.
  destruct (and_consume && negb (forward_range (urange v)));
    [|eexists; split; [reflexivity|left; reflexivity]].
  unfold consume_ctor.
  destruct (elems (urange v)) as [|x rest];
    [eexists; split; [reflexivity|left; reflexivity]|].
  destruct (invoke (functor v) x) as [r f1]. destruct r;
    [|eexists; split; [reflexivity|left; reflexivity]].
  unfold consume_incr. cbn [cbase at_end_gracefully].
  destruct (consume_run_cases rest f1 true) as [[h' E]|(h' & i' & E & Hg & Hlen)];
    rewrite E; eexists; (split; [reflexivity|]); right; eexists;
    (split; [reflexivity|]).
  - cbn [at_end_gracefully cbase length]. split; [reflexivity|lia].
  - cbn [length]. split; [assumption|lia].
Qed.

(** Whatever the functor does (regular or not) and whatever the
    configuration, traversing a [take_until] view never has undefined
    behaviour, ends within [length s + 1] rounds, and hands out a prefix
    of [s]. *)
Theorem take_until_traversal_is_safe
        (and_consume : bool) (v : view_take_until T F) (fuel : nat) :
  how (traverse invoke or_throw and_consume fuel v) <> undefined_behaviour /\
  ((length (elems (urange v)) < fuel)%nat ->
   how (traverse invoke or_throw and_consume fuel v) <> out_of_fuel) /\
  exists k : nat,
    yielded (traverse invoke or_throw and_consume fuel v)
    = firstn k (elems (urange v)).
Proof.
  unfold traverse.
  destruct (begin_defined and_consume v) as (st & -> & Hst).
  destruct Hst as [Hpos|(i & Hi & Hg & Hlen)].
  - destruct (for_each_take_until_safe fuel st [])
      as (Hub & _ & Hfuel & k & Hy).
    rewrite Hpos in *. split; [exact Hub|]. split; [exact Hfuel|].
    exists k. exact Hy.
  - destruct st as [f it0]. cbn [it] in Hi. subst it0.
    rewrite for_each_graceful by assumption. cbn [how yielded].
    split; [now destruct fuel|].
    split; [intros Hlt; destruct fuel; [lia|discriminate]|].
    exists 0%nat. reflexivity.
Qed.


End AnyFunctor.


Lemma take_until_traversal_is_safe_witness :
  how (traverse (fun (f : nat) (x : nat) => (Nat.eqb x f, S f)) false true 4
         (mk_view (mk_range false [5; 1; 2]%nat) 0%nat)) <> out_of_fuel.
Proof.
  refine (proj1 (proj2
            (take_until_traversal_is_safe
               (fun (f : nat) (x : nat) => (Nat.eqb x f, S f)) false true
               (mk_view (mk_range false [5; 1; 2]%nat) 0%nat) 4)) _).
  simpl. lia.
Defined.

(* ------------------------------------------------------------------ *)
(** *** How often the functor is invoked                               *)
(* ------------------------------------------------------------------ *)

Section Invocations.
Context {T F : Type}.
Variable invoke : F -> T -> bool * F.

Lemma scan_invoked :
  forall (s ys zs : list T) (f f' : F),
    scan invoke f s = (ys, zs, f') ->
    s = ys ++ zs /\ f' = invoked_on invoke f (ys ++ firstn 1 zs).
Proof.
  induction s as [|x rest IH]; intros ys zs f f' Hscan; cbn [scan] in Hscan.
  - injection Hscan as <- <- <-. split; reflexivity.
  - unfold invoked_on in *. destruct (invoke f x) as [r f1] eqn:E. destruct r.
    + injection Hscan as <- <- <-. cbn [app firstn fold_left].
      now rewrite E.
    + destruct (scan invoke f1 rest) as [[ys' zs'] f''] eqn:E'.
      injection Hscan as <- <- <-.
      destruct (IH ys' zs' f1 f'' E') as (-> & ->).
      cbn [app fold_left]. now rewrite E.
Qed.

(** The non-consuming traversal invokes the functor once on each element it
    hands out and once on the element it stops at, in this order, and on
    nothing behind it: the functor it leaves is the one obtained by these
    invocations. *)
Theorem take_until_invokes_once_per_element
        (or_throw and_consume : bool) (v : view_take_until T F) (fuel : nat) :
  and_consume && negb (forward_range (urange v)) = false ->
  (length (elems (urange v)) < fuel)%nat ->
  exists zs : list T,
    elems (urange v)
    = yielded (traverse invoke or_throw and_consume fuel v) ++ zs /\
    position (it (final (traverse invoke or_throw and_consume fuel v))) = zs /\
    fn (final (traverse invoke or_throw and_consume fuel v))
    = invoked_on invoke (functor v)
        (yielded (traverse invoke or_throw and_consume fuel v) ++ firstn 1 zs).
Proof.
  intros Hplain Hfuel. unfold traverse, begin_. rewrite Hplain.
  rewrite for_each_plain by assumption.
  destruct (scan invoke (functor v) (elems (urange v))) as [[ys zs] f'] eqn:E.
  destruct (scan_invoked _ _ _ _ _ E) as (Hs & Hf).
  exists zs. cbn [yielded final it fn position base app].
  repeat split; assumption.
Qed.

End Invocations.

Lemma take_until_invokes_once_per_element_witness :
  fn (final (traverse (fun (f : nat) (x : nat) => (Nat.eqb x 0, S f)) false false 6
               (mk_view (mk_range true [3; 1; 0; 2; 0]%nat) 0%nat))) = 3%nat.
Proof.
  destruct (take_until_invokes_once_per_element
              (fun (f : nat) (x : nat) => (Nat.eqb x 0, S f)) false false
              (mk_view (mk_range true [3; 1; 0; 2; 0]%nat) 0%nat) 6)
    as (zs & _ & Hzs & Hf).
  - reflexivity.
  - simpl. lia.
  - rewrite Hf. cbn in Hzs. subst zs. reflexivity.
Defined.

(* ------------------------------------------------------------------ *)
(** *** The consuming view with a regular predicate                    *)
(* ------------------------------------------------------------------ *)

Section RegularPredicate.
Context {T F : Type}.
Variable invoke : F -> T -> bool * F.
Variable or_throw : bool.
Variable f : F.
Variable p : T -> bool.
Hypothesis Hreg : regular invoke f p.

(** Whether the first element of [s], if any, satisfies [p]. *)
Let head_matches (s : list T) : bool :=
  match s with [] => false | x :: _ => p x end.

Lemma consume_run_skip_while (s : list T) :
  forall g : bool,
    consume_run invoke s f g
    = (f, mk_consume (skip_while p s) (g || head_matches s)).
Proof.
  induction s as [|x rest IH]; intros g; cbn [consume_run skip_while head_matches].
  - now rewrite orb_false_r.
  - rewrite Hreg. destruct (p x).
    + rewrite IH. cbn [orb]. now rewrite orb_true_r.
    + now rewrite orb_false_r.
Qed.

Lemma skip_while_split (s : list T) :
  exists run : list T,
    s = run ++ skip_while p s /\
    Forall (fun y => p y = true) run /\
    head_matches (skip_while p s) = false /\
    (run = [] <-> head_matches s = false).
Proof.
  induction s as [|x rest IH]; cbn [skip_while head_matches].
  - exists []. repeat split; auto.
  - destruct (p x) eqn:Hpx.
    + destruct IH as (run & Hrun & Hall & Hhead & _).
      exists (x :: run). cbn [app]. rewrite <- Hrun.
      repeat split; auto; discriminate.
    + exists []. cbn [head_matches]. repeat split; auto.
Qed.

(** The loop over a consuming cursor in front of a non-matching element. *)
Lemma for_each_consuming :
  forall (s out : list T) (fuel : nat),
    (length s < fuel)%nat ->
    head_matches s = false ->
    for_each (H := take_until_cursor invoke or_throw) fuel
             (mk_store f (consuming (mk_consume s false))) out
    = let '(ys, zs, _) := scan invoke f s in
      mk_trace (out ++ ys)
        (mk_store f (consuming (mk_consume (skip_while p zs) (head_matches zs))))
        (match zs with
         | [] => if or_throw then raised unexpected_end_of_input else finished
         | _ :: _ => finished
         end).
Proof.
  induction s as [|x rest IH]; intros out fuel Hfuel Hhead;
    (destruct fuel as [|fuel]; [simpl in Hfuel; lia|]).
  - cbn [for_each at_sentinel take_until_cursor scan].
    unfold op_eq_sentinel, consume_eq. cbn [it fn at_end_gracefully cbase].
    rewrite app_nil_r. now destruct or_throw.
  - cbn [head_matches] in Hhead.
    cbn [for_each at_sentinel dereference increment take_until_cursor scan].
    unfold op_eq_sentinel, consume_eq, op_deref, op_incr, consume_incr.
    cbn [it fn at_end_gracefully cbase position].
    rewrite Hreg, Hhead. cbn [it fn at_end_gracefully cbase position].
    rewrite consume_run_skip_while. cbn [orb].
    destruct (head_matches rest) eqn:Hrest.
    + (* a run of matches follows: it is skipped and the view ends *)
      destruct rest as [|y rest']; [discriminate|].
      cbn [head_matches] in Hrest. cbn [scan]. rewrite Hreg, Hrest.
      rewrite for_each_graceful by reflexivity.
      destruct fuel as [|fuel]; [simpl in Hfuel; lia|].
      cbn [head_matches]. now rewrite Hrest.
    + assert (Hskip : skip_while p rest = rest).
      { destruct rest as [|y rest']; [reflexivity|].
        cbn [head_matches] in Hrest. cbn [skip_while]. now rewrite Hrest. }
      rewrite Hskip, IH by (try assumption; simpl in Hfuel; lia).
      destruct (scan invoke f rest) as [[ys zs] f'].
      now rewrite <- app_assoc.
Qed.

(** With a regular predicate, the consuming view over a single-pass source
    [s] splits [s] into the elements it hands out, none of which satisfies
    the predicate, the run of matching elements it consumes, and the rest,
    which does not begin with a match and is where the underlying position
    is left.  It ends gracefully if the run is not empty; otherwise the
    source is exhausted, and the traversal throws or finishes according to
    [or_throw]. *)
Theorem consuming_view_splits_source (s : list T) (fuel : nat) :
  (length s < fuel)%nat ->
  exists ys run rest : list T,
    s = ys ++ run ++ rest /\
    Forall (fun y => p y = false) ys /\
    Forall (fun y => p y = true) run /\
    match rest with [] => True | z :: _ => p z = false end /\
    (run = [] -> rest = []) /\
    let tr := traverse invoke or_throw true fuel (mk_view (mk_range false s) f) in
    yielded tr = ys /\
    it (final tr) = consuming (mk_consume rest (negb (length run =? 0)%nat)) /\
    fn (final tr) = f /\
    how tr = match run with
             | [] => if or_throw then raised unexpected_end_of_input
                     else finished
             | _ :: _ => finished
             end.
Proof.
  intros Hfuel.
  destruct (scan invoke f s) as [[ys zs] f'] eqn:Hscan.
  destruct (scan_regular invoke p f Hreg _ _ _ _ Hscan)
    as (_ & Hs & Hys & Hzs).
  destruct (skip_while_split zs) as (run & Hrun & Hall & Hhead & Hnil).
  exists ys, run, (skip_while p zs).
  assert (Hflag : head_matches zs = negb (length run =? 0)%nat).
  { destruct run as [|y run'].
    - now apply Hnil.
    - cbn [length Nat.eqb negb]. destruct (head_matches zs); [reflexivity|].
      pose proof (proj2 Hnil eq_refl). discriminate. }
  assert (Hzs_nil : run = [] -> zs = []).
  { intros Hr. destruct zs as [|z zs']; [reflexivity|].
    apply Hnil in Hr. cbn [head_matches] in Hr. congruence. }
  split; [now rewrite <- Hrun|]. split; [exact Hys|]. split; [exact Hall|].
  split; [destruct (skip_while p zs); [exact I|exact Hhead]|].
  split; [intros Hr; now rewrite (Hzs_nil Hr)|].
  unfold traverse, begin_, consume_ctor.
  cbn [andb negb forward_range urange elems functor].
  assert (Hhow : match zs with
                 | [] => if or_throw then raised unexpected_end_of_input
                         else finished
                 | _ :: _ => finished
                 end
                 = match run with
                   | [] => if or_throw then raised unexpected_end_of_input
                           else finished
                   | _ :: _ => finished
                   end).
  { destruct run as [|y run']; [now rewrite Hzs_nil|].
    destruct zs; [|reflexivity]. cbn [skip_while app] in Hrun.
    discriminate. }
  destruct s as [|x s'].
  - destruct fuel as [|fuel]; [simpl in Hfuel; lia|].
    rewrite for_each_consuming by (try reflexivity; simpl; lia).
    rewrite Hscan. cbn [yielded final it fn how app].
    rewrite <- Hflag, Hhow. repeat split.
  - rewrite Hreg. destruct (p x) eqn:Hpx.
    + (* the source begins with a match *)
      cbn [scan] in Hscan. rewrite Hreg, Hpx in Hscan.
      injection Hscan as <- <- <-.
      unfold consume_incr. cbn [cbase at_end_gracefully].
      rewrite consume_run_skip_while. cbn [orb].
      rewrite for_each_graceful by reflexivity.
      destruct fuel as [|fuel]; [simpl in Hfuel; lia|].
      cbn [yielded final it fn how skip_while]. rewrite Hpx.
      rewrite <- Hflag, <- Hhow. cbn [head_matches]. rewrite Hpx.
      repeat split.
    + rewrite for_each_consuming by (try assumption; cbn [head_matches]; assumption).
      rewrite Hscan. cbn [yielded final it fn how app].
      rewrite <- Hflag, Hhow. repeat split.
Qed.

Lemma consuming_agrees_with_plain
      (and_consume : bool) (r : range T) (fuel : nat) :
  (length (elems r) < fuel)%nat ->
  yielded (traverse invoke or_throw and_consume fuel (mk_view r f))
  = yielded (traverse invoke or_throw false fuel (mk_view r f)) /\
  how (traverse invoke or_throw and_consume fuel (mk_view r f))
  = how (traverse invoke or_throw false fuel (mk_view r f)) /\
  position (it (final (traverse invoke or_throw and_consume fuel (mk_view r f))))
  = (if and_consume && negb (forward_range r) then skip_while p else fun zs => zs)
      (position (it (final (traverse invoke or_throw false fuel (mk_view r f))))).
Proof.
  intros Hfuel.
  destruct (and_consume && negb (forward_range r)) eqn:Hc.
  - destruct r as [fw s]. cbn [forward_range elems] in *.
    destruct and_consume; [|discriminate]. destruct fw; [discriminate|].
    assert (Hplain : traverse invoke or_throw false fuel (mk_view (mk_range false s) f)
                     = for_each (H := take_until_cursor invoke or_throw) fuel
                         (mk_store f (plain (mk_basic s))) []) by reflexivity.
    rewrite Hplain, for_each_plain by assumption.
    destruct (scan invoke f s) as [[ys zs] f'] eqn:Hscan.
    cbn [yielded how final it position base app].
    unfold traverse, begin_, consume_ctor.
    cbn [andb negb forward_range urange elems functor].
    destruct s as [|x s'].
    + destruct fuel as [|fuel]; [simpl in Hfuel; lia|].
      rewrite for_each_consuming by (try reflexivity; simpl; lia).
      rewrite Hscan. cbn [yielded final it how position cbase app].
      repeat split.
    + rewrite Hreg. destruct (p x) eqn:Hpx.
      * cbn [scan] in Hscan. rewrite Hreg, Hpx in Hscan.
        injection Hscan as <- <- <-.
        unfold consume_incr. cbn [cbase at_end_gracefully].
        rewrite consume_run_skip_while. cbn [orb].
        rewrite for_each_graceful by reflexivity.
        destruct fuel as [|fuel]; [simpl in Hfuel; lia|].
        cbn [yielded final it how position cbase skip_while]. rewrite Hpx.
        repeat split.
      * rewrite for_each_consuming
          by (try assumption; cbn [head_matches]; assumption).
        rewrite Hscan. cbn [yielded final it how position cbase app].
        repeat split.
  - unfold traverse, begin_. cbn [urange]. rewrite Hc.
    cbn [andb]. repeat split.
Qed.

(** With a regular predicate, consuming and plain cursors hand out the same
    elements and stop the same way; [and_consume] only moves the position
    the source is left at. *)
Theorem and_consume_keeps_elements
        (and_consume : bool) (r : range T) (fuel : nat) :
  (length (elems r) < fuel)%nat ->
  yielded (traverse invoke or_throw and_consume fuel (mk_view r f))
  = yielded (traverse invoke or_throw false fuel (mk_view r f)) /\
  how (traverse invoke or_throw and_consume fuel (mk_view r f))
  = how (traverse invoke or_throw false fuel (mk_view r f)) /\
  position (it (final (traverse invoke or_throw and_consume fuel (mk_view r f))))
  = (if and_consume && negb (forward_range r) then skip_while p else fun zs => zs)
      (position (it (final (traverse invoke or_throw false fuel (mk_view r f))))).
Proof. apply consuming_agrees_with_plain. Qed.

(** With a regular predicate, a traversal throws exactly when [or_throw] is
    set and no element of the source satisfies the predicate; in every
    other case it finishes. *)
Theorem or_throw_raises_iff_no_match
        (and_consume : bool) (r : range T) (fuel : nat) :
  (length (elems r) < fuel)%nat ->
  (how (traverse invoke or_throw and_consume fuel (mk_view r f))
   = raised unexpected_end_of_input
   <-> or_throw = true /\ Forall (fun x => p x = false) (elems r)) /\
  (how (traverse invoke or_throw and_consume fuel (mk_view r f)) = finished
   <-> or_throw = false \/ Exists (fun x => p x = true) (elems r)).
Proof.
  intros Hfuel.
  destruct (consuming_agrees_with_plain and_consume r fuel Hfuel) as (_ & -> & _).
  unfold traverse, begin_. cbn [andb urange functor].
  rewrite for_each_plain by assumption.
  destruct (scan invoke f (elems r)) as [[ys zs] f'] eqn:Hscan.
  destruct (scan_regular invoke p f Hreg _ _ _ _ Hscan)
    as (_ & Hs & Hys & Hzs).
  cbn [how]. rewrite Hs. destruct zs as [|z zs'].
  - rewrite app_nil_r.
    assert (Hno : ~ Exists (fun x => p x = true) ys).
    { intros Hex. apply Exists_exists in Hex. destruct Hex as (x & Hin & Hpx).
      rewrite Forall_forall in Hys. specialize (Hys x Hin). congruence. }
    destruct or_throw; split; split.
    + intros _. split; [reflexivity|exact Hys].
    + reflexivity.
    + discriminate.
    + intros [H|H]; [discriminate|contradiction].
    + discriminate.
    + intros [H _]. discriminate.
    + intros _. now left.
    + reflexivity.
  - assert (Hex : Exists (fun x => p x = true) (ys ++ z :: zs')).
    { apply Exists_exists. exists z. split; [|assumption].
      apply in_or_app. right. now left. }
    split; split.
    + discriminate.
    + intros (_ & Hall). rewrite Forall_forall in Hall.
      assert (p z = false) by (apply Hall, in_or_app; right; now left).
      congruence.
    + intros _. now right.
    + reflexivity.
Qed.

End RegularPredicate.

Lemma consuming_view_splits_source_witness :
  yielded (traverse (fun (g : unit) (x : nat) => (Nat.even x, g)) true true 7
             (mk_view (mk_range false [1; 3; 2; 4; 6; 5]%nat) tt)) = [1; 3]%nat /\
  it (final (traverse (fun (g : unit) (x : nat) => (Nat.even x, g)) true true 7
               (mk_view (mk_range false [1; 3; 2; 4; 6; 5]%nat) tt)))
  = consuming (mk_consume [5]%nat true).
Proof.
  destruct (consuming_view_splits_source
              (fun (g : unit) (x : nat) => (Nat.even x, g)) true tt Nat.even
              (fun x => eq_refl) [1; 3; 2; 4; 6; 5]%nat 7)
    as (ys & run & rest & _ & _ & _ & _ & _ & Hy & Hit & _).
  - simpl. lia.
  - split; reflexivity.
Defined.

Lemma and_consume_keeps_elements_witness :
  yielded (traverse (fun (g : unit) (x : nat) => (Nat.even x, g)) false true 5
             (mk_view (mk_range false [1; 2; 4; 7]%nat) tt))
  = yielded (traverse (fun (g : unit) (x : nat) => (Nat.even x, g)) false false 5
               (mk_view (mk_range false [1; 2; 4; 7]%nat) tt)).
Proof.
  refine (proj1 (and_consume_keeps_elements
                   (fun (g : unit) (x : nat) => (Nat.even x, g)) false tt Nat.even
                   (fun x => eq_refl) true (mk_range false [1; 2; 4; 7]%nat) 5 _)).
  simpl. lia.
Defined.

Lemma or_throw_raises_iff_no_match_witness :
  how (traverse (fun (g : unit) (x : nat) => (Nat.even x, g)) true true 4
         (mk_view (mk_range false [1; 3; 5]%nat) tt))
  = raised unexpected_end_of_input
  <-> true = true /\ Forall (fun x => Nat.even x = false) [1; 3; 5]%nat.
Proof.
  refine (proj1 (or_throw_raises_iff_no_match
                   (fun (g : unit) (x : nat) => (Nat.even x, g)) true tt Nat.even
                   (fun x => eq_refl) true (mk_range false [1; 3; 5]%nat) 4 _)).
  simpl. lia.
Defined.

End TakeUntilMore.

(* ================================================================== *)
(** ** Further properties of [view::take]                              *)
(* ================================================================== *)

Module TakeMore.
Import Take TakeProofs.

Section Safety.
Context {T : Type}.
Variables exactly or_throw : bool.

(** The loop from any cursor: never undefined, and an exception only under
    [or_throw], at the underlying end, in front of the bound. *)
Lemma for_each_take_safe (fuel : nat) :
  forall (s : store T) (out : list T),
    let tr := for_each (H := take_cursor exactly or_throw) fuel s out in
    how tr <> undefined_behaviour /\
    (forall e : exception,
        how tr = raised e ->
        or_throw = true /\ e = unexpected_end_of_input /\
        base (it (final tr)) = [] /\
        pos (it (final tr)) < max_pos (it (final tr))).
Proof.
  induction fuel as [|fuel IH]; intros s out tr; subst tr.
  - cbn [for_each how]. split; [discriminate|]. intros e. discriminate.
  - cbn [for_each at_sentinel dereference increment take_cursor].
    unfold op_eq_sentinel, op_deref, op_incr.
    destruct (Z.leb_spec (max_pos (it s)) (pos (it s))) as [Hle|Hlt].
    + cbn [how]. split; [discriminate|]. intros e. discriminate.
    + destruct (base (it s)) as [|x rest] eqn:Hbase.
      * destruct or_throw; cbn [how final].
        -- split; [discriminate|]. intros e [= <-]. auto.
        -- split; [discriminate|]. intros e. discriminate.
      * destruct (exactly && negb (ForwardIterator (rtype (urange (host s)))));
          apply IH.
Qed.


End Safety.

Section WithinSource.
Context {T : Type}.
Variable moved_from_size : range T -> option Z.

(** Whatever the adaptor returns stays within the source: a string view,
    span or sub-range is never longer than the source it points into, a
    general view never asks for more than [n]; and reading the returned
    value is never undefined. *)
Theorem take_result_within_source
        (exactly or_throw : bool) (r : range T) (n : Z) (t : take_result T) :
  is_size_t n ->
  take_fn moved_from_size exactly or_throw r n = Ok t ->
  match t with
  | string_view data len | span data len =>
      data = elems r /\ 0 <= len <= size r /\ len <= n
  | subrange first last_offset sz =>
      first = elems r /\ 0 <= last_offset <= size r /\ last_offset <= n /\
      sz = last_offset
  | general v => urange v = r /\ 0 <= target_size v <= n
  end /\
  forall fuel : nat, snd (elements exactly or_throw fuel t) <> undefined_behaviour.
Proof.
  intros Hn Htake. unfold is_size_t in Hn.
  assert (Hread : forall len : Z,
             0 <= len <= size r ->
             snd (read_n (elems r) (Z.to_nat len) []) <> undefined_behaviour).
  { intros len Hlen. unfold size in Hlen.
    rewrite read_n_firstn by lia. discriminate. }
  assert (Hgen : forall (v : view_take T) (fuel : nat),
             snd (elements exactly or_throw fuel (general v))
             <> undefined_behaviour).
  { intros v fuel. cbn [elements snd]. apply for_each_take_safe. }
  unfold take_fn, view_take_ctor in Htake.
  destruct r as [ty s]. unfold size in *. cbn [rtype Take.elems] in *.
  pose proof (Nat2Z.is_nonneg (length s)) as Hlen.
  destruct ty as [| |st sz fw]; cbn [SizedRange ForwardingRange] in Htake;
    [ | | destruct sz ]; destruct or_throw;
    rewrite ?andb_true_r, ?andb_false_r in Htake; cbn [andb] in Htake;
    repeat match type of Htake with
           | context [size_after_move ?f ?x] => destruct (size_after_move f x)
           | context [if ?a <? ?b then _ else _] =>
               destruct (Z.ltb_spec a b); try lia
           | context [if ?b then _ else _] => destruct b
           end;
    try discriminate; injection Htake as <-;
    (split;
     [ cbn [urange target_size]; repeat split; try reflexivity; lia
     | intros fuel; try apply Hgen; cbn [elements]; apply Hread; lia ]).
Qed.

End WithinSource.

Lemma take_result_within_source_witness :
  match span [1; 2; 3]%nat 3 with
  | string_view data len | span data len =>
      data = [1; 2; 3]%nat /\ 0 <= len <= 3 /\ len <= 7
  | subrange first last_offset sz =>
      first = [1; 2; 3]%nat /\ 0 <= last_offset <= 3 /\ last_offset <= 7 /\
      sz = last_offset
  | general v => urange v = mk_range (other contiguous true true) [1; 2; 3]%nat /\
                 0 <= target_size v <= 7
  end.
Proof.
  refine (proj1 (take_result_within_source (T := nat) (fun _ => None) true false
                   (mk_range (other contiguous true true) [1; 2; 3]%nat) 7
                   (span [1; 2; 3]%nat 3) _ _)).
  - unfold is_size_t, size_t_modulus. lia.
  - reflexivity.
Defined.


(* ------------------------------------------------------------------ *)
(** *** [size()] against the number of elements                        *)
(* ------------------------------------------------------------------ *)

Section Sizes.
Context {T : Type}.
Variable moved_from_size : range T -> option Z.

Lemma size_of_no_throw (exactly : bool) (r : range T) (n : Z)
      (t : take_result T) (k : Z) :
  is_size_t n ->
  take_fn moved_from_size exactly false r n = Ok t ->
  (exactly = true -> n <= size r) ->
  size_of exactly t = Some k ->
  k = Z.min n (size r).
Proof.
  intros Hn Htake Hexact Hsize. unfold is_size_t in Hn.
  unfold take_fn, view_take_ctor in Htake.
  destruct r as [ty s]. unfold size in *. cbn [rtype Take.elems] in *.
  destruct ty as [| |st sz fw]; cbn [SizedRange ForwardingRange] in Htake;
    [ | | destruct sz ];
    rewrite ?andb_true_r, ?andb_false_r in Htake; cbn [andb] in Htake;
    repeat match type of Htake with
           | context [if ?b then _ else _] => destruct b
           end;
    injection Htake as <-; cbn [size_of] in Hsize;
    try (injection Hsize as <-; lia);
    unfold view_size, size in Hsize;
    cbn [target_size urange rtype SizedRange Take.elems] in Hsize;
    destruct exactly; try discriminate;
    injection Hsize as <-; try specialize (Hexact eq_refl); lia.
Qed.

(** Without [or_throw], and with the source as long as an exact view
    asserts, the size a returned value reports is the number of elements
    its traversal hands out. *)
Theorem size_is_number_of_elements (exactly : bool) (r : range T) (n : Z)
        (t : take_result T) (k : Z) (fuel : nat) :
  is_size_t n ->
  take_fn moved_from_size exactly false r n = Ok t ->
  (exactly = true -> n <= size r) ->
  size_of exactly t = Some k ->
  (Z.to_nat k < fuel)%nat ->
  snd (elements exactly false fuel t) = finished /\
  Z.of_nat (length (fst (elements exactly false fuel t))) = k.
Proof.
  intros Hn Htake Hexact Hsize Hfuel.
  pose proof (size_of_no_throw exactly r n t k Hn Htake Hexact Hsize) as Hk.
  destruct (elements_no_throw moved_from_size exactly r n Hn)
    as (t' & Ht' & Hel).
  rewrite Htake in Ht'. injection Ht' as <-.
  unfold size, is_size_t in *.
  rewrite Hel by lia. cbn [fst snd]. split; [reflexivity|].
  rewrite length_firstn. lia.
Qed.

(** An exact view reports the requested size unconditionally: over an
    unsized source shorter than [n] the adaptor returns a view of size [n]
    whose traversal hands out only the [length s] elements there are. *)
Theorem exact_size_is_unconditional (or_throw : bool) (r : range T) (n : Z)
        (fuel : nat) :
  is_size_t n ->
  SizedRange (rtype r) = false ->
  size r < n ->
  (length (elems r) < fuel)%nat ->
  take_fn moved_from_size true or_throw r n = Ok (general (mk_view_take r n)) /\
  size_of true (general (mk_view_take r n)) = Some n /\
  yielded (traverse true or_throw fuel (mk_view_take r n)) = elems r /\
  how (traverse true or_throw fuel (mk_view_take r n))
  = (if or_throw then raised unexpected_end_of_input else finished).
Proof.
  intros Hn Hunsized Hlt Hfuel. unfold size in Hlt.
  assert (Hsteps : steps n 0 (elems r) = length (elems r))
    by (rewrite steps_0; lia).
  split; [|split; [reflexivity|]].
  - unfold take_fn, view_take_ctor. rewrite Hunsized.
    destruct (rtype r) as [| |st sz fw]; try discriminate.
    cbn [SizedRange] in Hunsized. subst sz.
    now rewrite !andb_false_r.
  - rewrite traverse_take; cbn [urange target_size]; rewrite ?Hsteps;
      try assumption.
    cbn [yielded how]. rewrite firstn_all.
    destruct (Z.leb_spec n (Z.of_nat (length (elems r)))); [lia|].
    split; reflexivity.
Qed.

End Sizes.

Lemma size_is_number_of_elements_witness :
  Z.of_nat (length (fst (elements false false 3
                           (span [1; 2; 3]%nat 2)))) = 2.
Proof.
  refine (proj2 (size_is_number_of_elements (T := nat) (fun _ => None) false
                   (mk_range (other contiguous true true) [1; 2; 3]%nat) 2
                   (span [1; 2; 3]%nat 2) 2 3 _ _ _ _ _)).
  - unfold is_size_t, size_t_modulus. lia.
  - reflexivity.
  - discriminate.
  - reflexivity.
  - simpl. lia.
Defined.

Lemma exact_size_is_unconditional_witness :
  size_of true (general (mk_view_take
                           (mk_range (other input_only false false)
                                     [1; 2]%nat) 5)) = Some 5 /\
  yielded (traverse true false 3
             (mk_view_take (mk_range (other input_only false false)
                                     [1; 2]%nat) 5)) = [1; 2]%nat.
Proof.
  destruct (exact_size_is_unconditional (T := nat) (fun _ => None) false
              (mk_range (other input_only false false) [1; 2]%nat) 5 3)
    as (_ & Hs & Hy & _).
  - unfold is_size_t, size_t_modulus. lia.
  - reflexivity.
  - unfold size. simpl. lia.
  - simpl. lia.
  - split; [exact Hs|exact Hy].
Defined.

End TakeMore.

(* ================================================================== *)
(** ** Properties of the multi-pass operators of [view_take]'s iterator *)
(* ================================================================== *)

Module TakeRandomAccessProofs.
Import TakeRandomAccess.

Section Arithmetic.
Context {T : Type}.

Lemma wrap_add_l (a b : Z) : wrap (wrap a + b) = wrap (a + b).
Proof. unfold wrap. apply Zplus_mod_idemp_l. Qed.

Lemma wrap_id (z : Z) : is_size_t z -> wrap z = z.
Proof. unfold is_size_t, wrap. intros H. now apply Z.mod_small. Qed.

Lemma base_advance_ok (b b' : base_iterator T) (skip : Z) :
  base_advance b skip = Ok b' <->
  0 <= index b + skip <= Z.of_nat (length (underlying b)) /\
  b' = mk_base (underlying b) (index b + skip).
Proof.
  unfold base_advance.
  destruct (Z.leb_spec 0 (index b + skip));
    destruct (Z.leb_spec (index b + skip) (Z.of_nat (length (underlying b))));
    cbn [andb]; split; try discriminate; try (intros [? _]; lia).
  - intros [= <-]. split; [lia|reflexivity].
  - intros [_ ->]. reflexivity.
Qed.

Lemma op_add_assign_ok (i i' : iterator_type T) (skip : Z) :
  op_add_assign i skip = Ok i' <->
  0 <= index (base i) + skip <= Z.of_nat (length (underlying (base i))) /\
  i' = mk_iterator (mk_base (underlying (base i)) (index (base i) + skip))
                   (wrap (pos i + skip)) (max_pos i).
Proof.
  unfold op_add_assign, and_then.
  destruct (base_advance (base i) skip) as [b| |] eqn:E.
  - apply base_advance_ok in E. destruct E as [Hin ->].
    split; [intros [= <-]; auto|intros [_ ->]; reflexivity].
  - split; [discriminate|]. intros [Hin _].
    assert (H : base_advance (base i) skip
                = Ok (mk_base (underlying (base i)) (index (base i) + skip)))
      by (apply base_advance_ok; auto).
    congruence.
  - split; [discriminate|]. intros [Hin _].
    assert (H : base_advance (base i) skip
                = Ok (mk_base (underlying (base i)) (index (base i) + skip)))
      by (apply base_advance_ok; auto).
    congruence.
Qed.

Lemma op_sub_assign_as_add (i : iterator_type T) (skip : Z) :
  op_sub_assign i skip = op_add_assign i (- skip).
Proof.
  unfold op_sub_assign, op_add_assign.
  now replace (pos i - skip) with (pos i + - skip) by lia.
Qed.

Lemma op_incr_as_add (i : iterator_type T) : op_incr i = op_add_assign i 1.
Proof. reflexivity. Qed.

Lemma op_decr_as_add (i : iterator_type T) : op_decr i = op_add_assign i (-1).
Proof. reflexivity. Qed.

Lemma add_assign_back (i i' : iterator_type T) (skip : Z) :
  0 <= index (base i) <= Z.of_nat (length (underlying (base i))) ->
  is_size_t (pos i) ->
  op_add_assign i skip = Ok i' ->
  op_add_assign i' (- skip) = Ok i.
Proof.
  intros Hin Hpos Hadd. apply op_add_assign_ok in Hadd.
  destruct Hadd as [Hj ->]. apply op_add_assign_ok.
  cbn [base pos max_pos underlying index].
  split; [lia|]. destruct i as [[u ix] ps mx].
  cbn [base pos max_pos underlying index] in *.
  rewrite wrap_add_l.
  replace (ps + skip + - skip) with ps by lia.
  replace (ix + skip + - skip) with ix by lia.
  now rewrite wrap_id.
Qed.

(** Moving an iterator and moving it back returns the iterator it was:
    [-=] undoes [+=], [+=] undoes [-=], [--] undoes [++] and [++] undoes
    [--], offset included, also where the offset wraps around. *)
Theorem moves_undo_each_other (i i' : iterator_type T) (skip : Z) :
  0 <= index (base i) <= Z.of_nat (length (underlying (base i))) ->
  is_size_t (pos i) ->
  (op_add_assign i skip = Ok i' -> op_sub_assign i' skip = Ok i) /\
  (op_sub_assign i skip = Ok i' -> op_add_assign i' skip = Ok i) /\
  (op_incr i = Ok i' -> op_decr i' = Ok i) /\
  (op_decr i = Ok i' -> op_incr i' = Ok i).
Proof.
  intros Hin Hpos. repeat split.
  - intros H. rewrite op_sub_assign_as_add. now apply add_assign_back.
  - rewrite op_sub_assign_as_add. intros H.
    apply add_assign_back in H; try assumption.
    now rewrite Z.opp_involutive in H.
  - rewrite op_incr_as_add, op_decr_as_add. now apply add_assign_back.
  - rewrite op_incr_as_add, op_decr_as_add. intros H.
    now apply (add_assign_back i i' (-1)) in H.
Qed.

(** [it += k] for [k >= 0] is [k] times [++it]: the same iterator, or
    undefined behaviour in both cases (when [k] leads behind the end). *)
Theorem add_assign_is_repeated_increment (k : nat) :
  forall i : iterator_type T,
    0 <= index (base i) <= Z.of_nat (length (underlying (base i))) ->
    is_size_t (pos i) ->
    op_add_assign i (Z.of_nat k) = incr_times k i.
Proof.
  induction k as [|k IH]; intros i Hin Hpos.
  - cbn [incr_times Z.of_nat].
    apply op_add_assign_ok. split; [lia|].
    destruct i as [[u ix] ps mx]. cbn [base pos max_pos underlying index] in *.
    now rewrite !Z.add_0_r, wrap_id.
  - cbn [incr_times]. rewrite op_incr_as_add.
    destruct (Z.leb_spec (index (base i) + 1)
                         (Z.of_nat (length (underlying (base i))))) as [Hle|Hgt].
    + assert (H1 : op_add_assign i 1
                   = Ok (mk_iterator
                           (mk_base (underlying (base i)) (index (base i) + 1))
                           (wrap (pos i + 1)) (max_pos i)))
        by (apply op_add_assign_ok; split; [lia|reflexivity]).
      rewrite H1. cbn [and_then]. rewrite <- IH.
      * unfold op_add_assign, base_advance.
        cbn [base pos max_pos underlying index].
        replace (index (base i) + Z.of_nat (S k))
          with (index (base i) + 1 + Z.of_nat k) by lia.
        rewrite wrap_add_l.
        replace (pos i + Z.of_nat (S k)) with (pos i + 1 + Z.of_nat k) by lia.
        reflexivity.
      * cbn [base underlying index]. lia.
      * cbn [pos]. unfold is_size_t, wrap. apply Z.mod_pos_bound.
        unfold size_t_modulus. lia.
    + assert (H1 : op_add_assign i 1 = Undefined).
      { unfold op_add_assign, base_advance.
        destruct (Z.leb_spec (index (base i) + 1)
                             (Z.of_nat (length (underlying (base i)))));
          [lia|]. now rewrite andb_false_r. }
      rewrite H1. cbn [and_then].
      unfold op_add_assign, base_advance.
      destruct (Z.leb_spec (index (base i) + Z.of_nat (S k))
                           (Z.of_nat (length (underlying (base i)))));
        [lia|]. now rewrite andb_false_r.
Qed.

(** All iterators that [begin()] and the moves produce are in step: their
    offset is the position of the underlying iterator.  For two such
    iterators of one range, [operator==], which compares the underlying
    iterators only, holds exactly when the offsets are equal. *)
Theorem iterator_equality_is_offset_equality :
  (forall (s : list T) (n : Z), in_step (begin_ s n)) /\
  (forall (i i' : iterator_type T) (skip : Z),
      in_step i ->
      op_incr i = Ok i' \/ op_decr i = Ok i' \/
      op_add_assign i skip = Ok i' \/ op_sub_assign i skip = Ok i' ->
      in_step i' /\ underlying (base i') = underlying (base i) /\
      max_pos i' = max_pos i) /\
  (forall i1 i2 : iterator_type T,
      in_step i1 -> in_step i2 ->
      underlying (base i1) = underlying (base i2) ->
      Z.of_nat (length (underlying (base i1))) < size_t_modulus ->
      op_eq i1 i2 = (pos i1 =? pos i2)).
Proof.
  split; [|split].
  - intros s n. unfold in_step, begin_. cbn [base pos index underlying].
    split; [lia|reflexivity].
  - intros i i' skip [Hin Hpos] Hmove.
    assert (Hadd : exists k : Z, op_add_assign i k = Ok i').
    { destruct Hmove as [H|[H|[H|H]]].
      - exists 1. exact H.
      - exists (-1). exact H.
      - exists skip. exact H.
      - exists (- skip). now rewrite <- op_sub_assign_as_add. }
    destruct Hadd as [k Hk]. apply op_add_assign_ok in Hk.
    destruct Hk as [Hj ->]. unfold in_step.
    cbn [base pos max_pos underlying index].
    repeat split; try lia. rewrite Hpos. apply wrap_add_l.
  - intros i1 i2 [Hin1 Hpos1] [Hin2 Hpos2] Hsame Hlen. unfold op_eq.
    rewrite Hpos1, Hpos2, !wrap_id
      by (unfold is_size_t; rewrite <- ?Hsame in *; lia).
    reflexivity.
Qed.

(** Moving [begin()] forward by [k <= n] inside the source is defined, and
    the iterator reached compares equal to the sentinel exactly for
    [k = n]: [begin() + size()] is the end, also under [or_throw] and also
    when the source ends there. *)
Theorem begin_plus_size_is_end (or_throw : bool) (s : list T) (n k : Z) :
  is_size_t n ->
  n <= Z.of_nat (length s) ->
  0 <= k <= n ->
  exists i : iterator_type T,
    op_add_assign (begin_ s n) k = Ok i /\
    op_eq_sentinel or_throw i = Ok (k =? n).
Proof.
  intros Hn Hlen Hk. unfold is_size_t in Hn.
  eexists. split.
  - apply op_add_assign_ok. cbn [begin_ base underlying index].
    split; [lia|reflexivity].
  - unfold op_eq_sentinel. cbn [begin_ base pos max_pos underlying index].
    rewrite !Z.add_0_l, wrap_id by (unfold is_size_t; lia).
    destruct (Z.leb_spec n k), (Z.eqb_spec k n); try lia; try reflexivity.
    destruct (Z.eqb_spec k (Z.of_nat (length s))); [lia|reflexivity].
Qed.

End Arithmetic.

Lemma begin_plus_size_is_end_witness :
  exists i : iterator_type nat,
    op_add_assign (begin_ [1; 2; 3]%nat 3) 3 = Ok i /\
    op_eq_sentinel true i = Ok (3 =? 3).
Proof.
  apply (begin_plus_size_is_end (T := nat) true [1; 2; 3]%nat 3 3).
  - unfold is_size_t, size_t_modulus. lia.
  - simpl. lia.
  - lia.
Defined.

Lemma moves_undo_each_other_witness :
  op_sub_assign (mk_iterator (mk_base [1; 2; 3]%nat 3) 3 3) 2
  = Ok (mk_iterator (mk_base [1; 2; 3]%nat 1) 1 3).
Proof.
  refine (proj1 (moves_undo_each_other (T := nat)
                   (mk_iterator (mk_base [1; 2; 3]%nat 1) 1 3)
                   (mk_iterator (mk_base [1; 2; 3]%nat 3) 3 3) 2 _ _) _).
  - simpl. lia.
  - unfold is_size_t, size_t_modulus. simpl. lia.
  - reflexivity.
Defined.

Lemma add_assign_is_repeated_increment_witness :
  op_add_assign (begin_ [1; 2; 3]%nat 2) (Z.of_nat 2)
  = incr_times 2 (begin_ [1; 2; 3]%nat 2).
Proof.
  apply (add_assign_is_repeated_increment (T := nat) 2
           (begin_ [1; 2; 3]%nat 2)).
  - simpl. lia.
  - unfold is_size_t, size_t_modulus. simpl. lia.
Defined.

Lemma iterator_equality_is_offset_equality_witness :
  op_eq (begin_ [1; 2; 3]%nat 2) (begin_ [1; 2; 3]%nat 2)
  = (pos (begin_ [1; 2; 3]%nat 2) =? pos (begin_ [1; 2; 3]%nat 2)).
Proof.
  refine (proj2 (proj2 (iterator_equality_is_offset_equality (T := nat)))
            (begin_ [1; 2; 3]%nat 2) (begin_ [1; 2; 3]%nat 2) _ _ _ _).
  - exact (proj1 (iterator_equality_is_offset_equality (T := nat))
             [1; 2; 3]%nat 2).
  - exact (proj1 (iterator_equality_is_offset_equality (T := nat))
             [1; 2; 3]%nat 2).
  - reflexivity.
  - unfold size_t_modulus. simpl. lia.
Defined.

End TakeRandomAccessProofs.

(* ================================================================== *)
(** ** Properties of the optimum policy                                *)
(* ================================================================== *)

From Stdlib Require Import Permutation.

Module FindOptimumProofs.
Import FindOptimum.

Section Column.
Context {C : Type}.

Lemma fold_max_spec (rng : list (Z * C)) :
  forall o : Z,
    let m := fold_left (fun o tpl => Z.max o (fst tpl)) rng o in
    o <= m /\
    Forall (fun tpl => fst tpl <= m) rng /\
    (m = o \/ In m (map fst rng)).
Proof.
  induction rng as [|c rest IH]; intros o m; subst m; cbn [fold_left map].
  - split; [lia|]. split; [constructor|now left].
  - destruct (IH (Z.max o (fst c))) as (Hle & Hall & Hin).
    split; [lia|]. split.
    + constructor; [lia|exact Hall].
    + destruct Hin as [Hm|Hm]; [|right; now right].
      rewrite Hm. destruct (Z.max_spec o (fst c)) as [[_ ->]|[_ ->]];
        [right; now left|now left].
Qed.

Lemma back_app (front : list (Z * C)) (c : Z * C) : back (front ++ [c]) = Ok c.
Proof.
  induction front as [|x front IH]; [reflexivity|].
  cbn [app back]. rewrite IH. now destruct (front ++ [c]) eqn:E;
    [destruct front; discriminate|].
Qed.

Lemma back_undefined (rng : list (Z * C)) : back rng = Undefined <-> rng = [].
Proof.
  split; [|intros ->; reflexivity].
  destruct rng as [|c rest] using rev_ind; [reflexivity|].
  rewrite back_app. discriminate.
Qed.

(** Searching the whole last column leaves the maximum of the previous
    optimum and all scores of the column: it is at least each of them and
    is one of them. *)
Theorem last_column_search_finds_maximum
        (traits : traits_type) (rng : list (Z * C)) (optimum : Z) :
  find_in_last_column_type traits = true ->
  exists m : Z,
    check_score_last_column traits rng optimum = Ok m /\
    optimum <= m /\
    Forall (fun tpl => fst tpl <= m) rng /\
    (m = optimum \/ In m (map fst rng)).
Proof.
  intros Htrait. unfold check_score_last_column. rewrite Htrait.
  eexists. split; [reflexivity|]. apply fold_max_spec.
Qed.

(** Without the trait only the last cell of the column counts: the optimum
    becomes the larger of the previous optimum and that cell's score,
    whatever the other cells hold; on an empty column the behaviour is
    undefined.  The search of the whole column never gives less. *)
Theorem last_cell_only_without_trait
        (traits all_cells : traits_type) (front : list (Z * C)) (c : Z * C)
        (optimum : Z) :
  find_in_last_column_type traits = false ->
  find_in_last_column_type all_cells = true ->
  check_score_last_column traits (front ++ [c]) optimum
  = Ok (Z.max optimum (fst c)) /\
  check_score_last_column traits (@nil (Z * C)) optimum = Undefined /\
  exists m : Z,
    check_score_last_column all_cells (front ++ [c]) optimum = Ok m /\
    Z.max optimum (fst c) <= m.
Proof.
  intros Hoff Hon. unfold check_score_last_column. rewrite Hoff, Hon.
  rewrite back_app. split; [reflexivity|]. split; [reflexivity|].
  eexists. split; [reflexivity|].
  destruct (fold_max_spec (front ++ [c]) optimum) as (Hle & Hall & _).
  rewrite Forall_forall in Hall.
  assert (Hc : In c (front ++ [c])) by (apply in_or_app; right; now left).
  specialize (Hall c Hc). lia.
Qed.

End Column.

Lemma last_column_search_finds_maximum_witness :
  exists m : Z,
    check_score_last_column (mk_traits false false true)
      [(3, tt); (-1, tt); (7, tt); (2, tt)] 5 = Ok m /\
    5 <= m /\
    Forall (fun tpl => fst tpl <= m) [(3, tt); (-1, tt); (7, tt); (2, tt)] /\
    (m = 5 \/ In m (map fst [(3, tt); (-1, tt); (7, tt); (2, tt)])).
Proof.
  apply (last_column_search_finds_maximum (C := unit)
           (mk_traits false false true)
           [(3, tt); (-1, tt); (7, tt); (2, tt)] 5).
  reflexivity.
Defined.

Lemma last_cell_only_without_trait_witness :
  check_score_last_column default_find_optimum_trait
    ([(9, tt); (4, tt)] ++ [(6, tt)]) 5 = Ok (Z.max 5 (fst (6, tt))).
Proof.
  refine (proj1 (last_cell_only_without_trait (C := unit)
                   default_find_optimum_trait (mk_traits false false true)
                   [(9, tt); (4, tt)] (6, tt) 5 _ _)).
  - reflexivity.
  - reflexivity.
Defined.

Section Cells.
Variable traits : traits_type.

Lemma check_score_swap (check : Z -> Z -> Z) :
  check = check_score traits \/ check = check_score_last_row traits ->
  forall a b o : Z, check a (check b o) = check b (check a o).
Proof.
  intros [-> | ->] a b o; unfold check_score, check_score_last_row;
    [destruct (find_in_every_cell_type traits)
    |destruct (find_in_last_row_type traits)]; lia.
Qed.

(** The optimum left by [check_score] (or [check_score_last_row]) after a
    number of cells does not depend on the order in which the cells are
    visited; with the trait set it is the maximum of the previous optimum
    and the cells' scores, without it the previous optimum. *)
Theorem check_score_order_is_irrelevant (cells cells' : list Z) (optimum : Z) :
  Permutation cells cells' ->
  fold_left (fun o val => check_score traits val o) cells optimum
  = fold_left (fun o val => check_score traits val o) cells' optimum /\
  fold_left (fun o val => check_score_last_row traits val o) cells optimum
  = fold_left (fun o val => check_score_last_row traits val o) cells' optimum /\
  fold_left (fun o val => check_score traits val o) cells optimum
  = (if find_in_every_cell_type traits
     then fold_left Z.max cells optimum else optimum) /\
  fold_left (fun o val => check_score_last_row traits val o) cells optimum
  = (if find_in_last_row_type traits
     then fold_left Z.max cells optimum else optimum).
Proof.
  intros Hperm.
  assert (Horder : forall check : Z -> Z -> Z,
             check = check_score traits \/ check = check_score_last_row traits ->
             forall o : Z,
               fold_left (fun o val => check val o) cells o
               = fold_left (fun o val => check val o) cells' o).
  { intros check Hcheck.
    induction Hperm as [|x l l' _ IH|x y l|l l' l'' _ IH1 _ IH2]; intros o.
    - reflexivity.
    - cbn [fold_left]. apply IH.
    - cbn [fold_left]. now rewrite (check_score_swap check Hcheck).
    - now rewrite IH1, IH2. }
  split; [apply (Horder (check_score traits)); now left|].
  split; [apply (Horder (check_score_last_row traits)); now right|].
  unfold check_score, check_score_last_row.
  split.
  - destruct (find_in_every_cell_type traits); [reflexivity|].
    clear. revert optimum. induction cells as [|c cells IH]; intros o;
      [reflexivity|apply IH].
  - destruct (find_in_last_row_type traits); [reflexivity|].
    clear. revert optimum. induction cells as [|c cells IH]; intros o;
      [reflexivity|apply IH].
Qed.

End Cells.

Lemma check_score_order_is_irrelevant_witness :
  fold_left (fun o val => check_score (mk_traits true false false) val o)
            [3; 9; 4] 5
  = fold_left (fun o val => check_score (mk_traits true false false) val o)
              [9; 4; 3] 5.
Proof.
  refine (proj1 (check_score_order_is_irrelevant (mk_traits true false false)
                   [3; 9; 4] [9; 4; 3] 5 _)).
  apply (perm_trans (l' := [9; 3; 4])); [apply perm_swap|].
  apply perm_skip. apply perm_swap.
Defined.

Section TrailingGaps.
Variable bits : Z.
Hypothesis Hbits : 0 < bits.
Context {score_type : Type}.
Variable add : score_type -> score_type -> score_type.
Variable score : Z -> score_type.

Lemma pow_bits : 2 ^ bits = 2 * 2 ^ (bits - 1).
Proof.
  replace bits with (Z.succ (bits - 1)) at 1 by lia.
  apply Z.pow_succ_r. lia.
Qed.

Lemma to_signed_in_range (z : Z) :
  - 2 ^ (bits - 1) <= z < 2 ^ (bits - 1) -> to_signed bits z = z.
Proof.
  intros Hz. unfold to_signed. pose proof pow_bits as Hp.
  assert (Hh : 0 < 2 ^ (bits - 1)) by (apply Z.pow_pos_nonneg; lia).
  destruct (Z.leb_spec 0 z) as [Hnn|Hneg].
  - rewrite Z.mod_small by lia.
    destruct (Z.ltb_spec z (2 ^ (bits - 1))); lia.
  - assert (Hm : z mod 2 ^ bits = z + 2 ^ bits).
    { symmetry. apply (Z.mod_unique z (2 ^ bits) (-1)); lia. }
    rewrite Hm. destruct (Z.ltb_spec (z + 2 ^ bits) (2 ^ (bits - 1))); lia.
Qed.

(** With dimensions, band sums and gaps that fit the signed type, both
    assertions of [balance_trailing_gaps] hold, and it adds to the total the
    scores of the two trailing gaps: what is left of the first dimension
    behind [upper_bound + dimension_second], and of the second dimension
    behind [dimension_first - lower_bound], each at least zero; a gap behind
    the last column is skipped when the last row is searched, a gap behind
    the last row when the last column is searched, and both when every cell
    is searched. *)
Theorem balance_trailing_gaps_adds_gap_scores
        (traits : traits_type) (total : score_type)
        (dimension_first dimension_second lower_bound upper_bound : Z) :
  0 <= dimension_first < 2 ^ (bits - 1) ->
  0 <= dimension_second < 2 ^ (bits - 1) ->
  - 2 ^ (bits - 1) <= upper_bound + dimension_second < 2 ^ (bits - 1) ->
  - 2 ^ (bits - 1) <= dimension_first - lower_bound < 2 ^ (bits - 1) ->
  dimension_first - (upper_bound + dimension_second) < 2 ^ (bits - 1) ->
  dimension_second - (dimension_first - lower_bound) < 2 ^ (bits - 1) ->
  let gap_column :=
    Z.max 0 (dimension_first - (upper_bound + dimension_second)) in
  let gap_row :=
    Z.max 0 (dimension_second - (dimension_first - lower_bound)) in
  gap_size_last_column bits dimension_first dimension_second upper_bound
  = gap_column /\
  gap_size_last_row bits dimension_first dimension_second lower_bound
  = gap_row /\
  balance_trailing_gaps traits bits add score total
    dimension_first dimension_second lower_bound upper_bound
  = Some
      (let after_column :=
         if find_in_last_row_type traits || find_in_every_cell_type traits
         then total else add total (score gap_column) in
       if find_in_last_column_type traits || find_in_every_cell_type traits
       then after_column else add after_column (score gap_row)).
Proof.
  intros Hd1 Hd2 Hub Hlb Hgc Hgr gap_column gap_row.
  subst gap_column gap_row.
  assert (Hcol : gap_size_last_column bits dimension_first dimension_second
                   upper_bound
                 = Z.max 0 (dimension_first - (upper_bound + dimension_second))).
  { unfold gap_size_last_column.
    rewrite (to_signed_in_range (upper_bound + dimension_second)) by lia.
    rewrite (to_signed_in_range dimension_first) by lia.
    rewrite to_signed_in_range by lia. lia. }
  assert (Hrow : gap_size_last_row bits dimension_first dimension_second
                   lower_bound
                 = Z.max 0 (dimension_second - (dimension_first - lower_bound))).
  { unfold gap_size_last_row.
    rewrite (to_signed_in_range (dimension_first - lower_bound)) by lia.
    rewrite (to_signed_in_range dimension_second) by lia.
    rewrite to_signed_in_range by lia. lia. }
  split; [exact Hcol|]. split; [exact Hrow|].
  unfold balance_trailing_gaps. rewrite Hcol, Hrow.
  destruct (Z.leb_spec 0 (Z.max 0 (dimension_first
                                   - (upper_bound + dimension_second))));
    [|lia].
  destruct (Z.leb_spec 0 (Z.max 0 (dimension_second
                                   - (dimension_first - lower_bound))));
    [|lia].
  destruct (find_in_last_row_type traits), (find_in_every_cell_type traits),
    (find_in_last_column_type traits); reflexivity.
Qed.

End TrailingGaps.

Lemma balance_trailing_gaps_adds_gap_scores_witness :
  balance_trailing_gaps default_find_optimum_trait 64 Z.add (fun g => -2 * g)
    10 8 6 (-1) 1
  = Some (10 + -2 * 1 + -2 * 0).
Proof.
  refine (proj2 (proj2 (balance_trailing_gaps_adds_gap_scores 64 _
                          Z.add (fun g => -2 * g) default_find_optimum_trait
                          10 8 6 (-1) 1 _ _ _ _ _ _))).
  - lia.
  - simpl. lia.
  - simpl. lia.
  - simpl. lia.
  - simpl. lia.
  - simpl. lia.
  - simpl. lia.
Defined.

End FindOptimumProofs.

(* ================================================================== *)
(** ** Properties of the aa27 literals                                 *)
(* ================================================================== *)

Module Aa27ContainerProofs.
Import Aa27Container.

Section Literals.
Context {aa27 : Type}.
Variable default : aa27.
Variable from_char : Byte.byte -> aa27.

Lemma assign_at_app (done : list aa27) :
  forall (x : aa27) (pending : list aa27) (a : aa27),
    assign_at (done ++ x :: pending) (length done) a
    = Ok (done ++ a :: pending).
Proof.
  induction done as [|d done IH]; intros x pending a; [reflexivity|].
  cbn [app length assign_at]. now rewrite IH.
Qed.

Lemma assign_at_outside (r : list aa27) :
  forall (d_first : nat) (a : aa27),
    (length r <= d_first)%nat -> assign_at r d_first a = Undefined.
Proof.
  induction r as [|x r IH]; intros d_first a Hle; [reflexivity|].
  destruct d_first as [|d]; [simpl in Hle; lia|].
  cbn [assign_at]. rewrite IH by (simpl in Hle; lia). reflexivity.
Qed.

Lemma transform_spec (n : nat) :
  forall (s : list Byte.byte) (done pending : list aa27),
    (n <= length s)%nat ->
    (n <= length pending)%nat ->
    transform from_char s n (done ++ pending) (length done)
    = Ok (done ++ map from_char (firstn n s) ++ skipn n pending).
Proof.
  induction n as [|n IH]; intros s done pending Hs Hp.
  - reflexivity.
  - destruct s as [|c s']; [simpl in Hs; lia|].
    destruct pending as [|x pending']; [simpl in Hp; lia|].
    cbn [transform]. rewrite assign_at_app.
    replace (done ++ from_char c :: pending')
      with ((done ++ [from_char c]) ++ pending')
      by (now rewrite <- app_assoc).
    replace (S (length done)) with (length (done ++ [from_char c]))
      by (rewrite length_app; simpl; lia).
    rewrite IH by (simpl in *; lia).
    cbn [firstn map skipn]. now rewrite <- app_assoc.
Qed.

Lemma assign_at_no_throw (r : list aa27) :
  forall (d_first : nat) (a : aa27) (e : exception),
    assign_at r d_first a <> Throw e.
Proof.
  induction r as [|x r IH]; intros d_first a e; [discriminate|].
  destruct d_first as [|d]; [discriminate|].
  cbn [assign_at]. specialize (IH d a).
  destruct (assign_at r d a); try discriminate.
  intros [= ->]. now apply (IH e).
Qed.

Lemma transform_short (n : nat) :
  forall (s : list Byte.byte) (r : list aa27) (d_first : nat),
    (length s < n)%nat -> transform from_char s n r d_first = Undefined.
Proof.
  induction n as [|n IH]; intros s r d_first Hs; [lia|].
  destruct s as [|c s']; [reflexivity|].
  cbn [transform].
  destruct (assign_at r d_first (from_char c)) eqn:E; try reflexivity.
  - apply IH. simpl in Hs. lia.
  - now apply assign_at_no_throw in E.
Qed.

(** A literal of [n] characters yields exactly [n] letters, the [i]-th
    being [from_char] of the [i]-th character and none left at the default
    value [resize] put there; the vector and the string literal yield the
    same letters.  Asking for more characters than [s] holds is undefined. *)
Theorem literal_converts_each_character (s : list Byte.byte) (n : nat) :
  ((n <= length s)%nat ->
   operator_aa27 default from_char s n = Ok (map from_char (firstn n s)) /\
   operator_aa27s default from_char s n = Ok (map from_char (firstn n s)) /\
   length (map from_char (firstn n s)) = n) /\
  ((length s < n)%nat ->
   operator_aa27 default from_char s n = Undefined /\
   operator_aa27s default from_char s n = Undefined).
Proof.
  split.
  - intros Hn. unfold operator_aa27, operator_aa27s.
    pose proof (transform_spec n s [] (repeat default n) Hn) as H.
    cbn [app length] in H. rewrite H by (rewrite repeat_length; lia).
    rewrite skipn_all2 by (rewrite repeat_length; lia).
    rewrite app_nil_r. repeat split.
    rewrite length_map, length_firstn. lia.
  - intros Hn. unfold operator_aa27, operator_aa27s.
    now rewrite transform_short.
Qed.

End Literals.

Lemma literal_converts_each_character_witness :
  operator_aa27 Byte.x00 (fun c => c) [Byte.x41; Byte.x43; Byte.x44] 3
  = Ok (map (fun c => c) (firstn 3 [Byte.x41; Byte.x43; Byte.x44])).
Proof.
  refine (proj1 (proj1 (literal_converts_each_character Byte.x00
                          (fun c => c)
                          [Byte.x41; Byte.x43; Byte.x44] 3) _)).
  simpl. lia.
Defined.

End Aa27ContainerProofs.
